(** * smart-storage: a TTL key-value store over a Storage backend

    Shallow embedding of [src/index.ts] and [src/types.ts].

    - [JSON]: the values a caller can hand to [set], and the host's
      [JSON.stringify] and [JSON.parse] on them.  A number is the decimal
      that Number::toString prints for it, an integer or an integer over
      a power of ten, and arithmetic on numbers is exact; strings are
      sequences of bytes, holding UTF-8.
    - [JSMap]: the insertion-ordered [Map<string, string>] that
      [memoryStorage] closes over.
    - [Storage.Storage]: the six members of the DOM [Storage] interface
      that the store calls; [memoryStorage] is one instance, and a host
      area with a quota, which can be locked, is another.  The mutators
      of an area can throw; its readers do not.
    - [M]: the state-and-exception monad of the operations, over the
      [World] of one store instance: its backend, the listeners of its
      emitter, the clock, and the traces of the events published and of
      the callbacks called.  A caller's callback is known by its identity
      and only observes: calling it is recorded, and it does not call the
      store back.
    - [createEmitter], [make] and [withPrefix], member by member.

    The second half states and proves the properties of the store. *)

From Stdlib Require Import ZArith List String Ascii Bool Lia Arith.
From Stdlib Require Import DecimalString DecimalZ DecimalPos.
From Stdlib Require DecimalFacts.
Import ListNotations.
Open Scope string_scope.

(* ================================================================== *)
(** * Definitions *)
(* ================================================================== *)

(** ** Characters used by the JSON grammar *)

Definition dquote : ascii := ascii_of_nat 34.
Definition backslash : ascii := ascii_of_nat 92.

Module JSON.

(** JavaScript values.  [Undefined] is what [get] returns for "absent";
    [BigInt] is the representative of the values [JSON.stringify] refuses
    (it throws a TypeError on them).  A number is [Num n] when it is the
    integer [n], and [Dec m k] when it is not an integer: the decimal
    [m / 10^k], where 10 does not divide [m]. *)
#[warnings="-register-all"]
Inductive value : Type :=
| Undefined
| Null
| Boolean (b : bool)
| Num (n : Z)
| Str (s : string)
| Arr (items : list value)
| Obj (members : list (string * value))
| BigInt (n : Z)
| Dec (m : Z) (k : positive).

(** Values that JSON can represent: no [Undefined] and no [BigInt] at any
    depth, and every decimal in lowest terms. *)
Fixpoint json_value (v : value) : bool :=
  match v with
  | Undefined | BigInt _ => false
  | Null | Boolean _ | Num _ | Str _ => true
  | Dec m _ => negb (m mod 10 =? 0)%Z
  | Arr items => forallb json_value items
  | Obj members => forallb (fun m => json_value (snd m)) members
  end.

(** Number of nodes, counting one more per container slot: the fuel the
    parser needs for a value. *)
Fixpoint size (v : value) : nat :=
  match v with
  | Arr items => S (list_sum (map (fun x => S (size x)) items))
  | Obj members => S (list_sum (map (fun m => S (size (snd m))) members))
  | _ => 1
  end.

(** *** Number::toString *)

(** The decimal digits of [p]. *)
Definition digits_of (p : positive) : string :=
  NilEmpty.string_of_uint (Pos.to_uint p).

(** The decimal digits of [|n|]. *)
Definition magnitude_text (n : Z) : string :=
  match n with
  | Z0 => "0"
  | Zpos p | Zneg p => digits_of p
  end.

(** [n] zeros. *)
Fixpoint zeros (n : nat) : string :=
  match n with
  | O => ""
  | S n' => String "0" (zeros n')
  end.

(** [s] without its trailing zeros. *)
Fixpoint strip_zeros (s : string) : string :=
  match s with
  | EmptyString => ""
  | String c r =>
      match strip_zeros r with
      | EmptyString => if Ascii.eqb c "0" then "" else String c ""
      | String c' r' => String c (String c' r')
      end
  end.

(** The first [n] characters of [s], and the rest. *)
Fixpoint take (n : nat) (s : string) : string :=
  match n, s with
  | S n', String c r => String c (take n' r)
  | _, _ => ""
  end.

Fixpoint drop (n : nat) (s : string) : string :=
  match n, s with
  | S n', String _ r => drop n' r
  | _, _ => s
  end.

(** The text of the number [0.s * 10^n], for significant digits [s] that
    neither start nor end with a zero: plain digits while the point falls
    within 21 places, a leading [0.] down to six places after it, and the
    exponent form beyond. *)
Definition format_number (s : string) (n : Z) : string :=
  let l := Z.of_nat (String.length s) in
  if ((l <=? n) && (n <=? 21))%Z then s ++ zeros (Z.to_nat (n - l))
  else if ((0 <? n) && (n <=? 21))%Z
  then take (Z.to_nat n) s ++ String "." (drop (Z.to_nat n) s)
  else if ((-6 <? n) && (n <=? 0))%Z
  then String "0" (String "." (zeros (Z.to_nat (- n)) ++ s))
  else
    match s with
    | String c r =>
        String c
          (match r with
           | EmptyString => ""
           | String _ _ => String "." r
           end ++
           String "e"
             (String (if (0 <=? n - 1)%Z then "+" else "-")%char
                (magnitude_text (n - 1))))
    | EmptyString => ""
    end.

(** The text of [m / 10^shift]. *)
Definition point_text (m : Z) (shift : Z) : string :=
  match m with
  | Z0 => "0"
  | Zpos p =>
      format_number (strip_zeros (digits_of p))
        (Z.of_nat (String.length (digits_of p)) - shift)
  | Zneg p =>
      String "-"
        (format_number (strip_zeros (digits_of p))
           (Z.of_nat (String.length (digits_of p)) - shift))
  end.

Definition number_text (n : Z) : string := point_text n 0.

Definition decimal_text (m : Z) (k : positive) : string :=
  point_text m (Zpos k).

(** *** JSON.stringify *)

Definition hex_digit (n : nat) : ascii :=
  ascii_of_nat (if Nat.ltb n 10 then 48 + n else 87 + n).

(** QuoteJSONString, one character. *)
Definition escape_char (c : ascii) : string :=
  let n := nat_of_ascii c in
  if Nat.eqb n 8 then String backslash "b"
  else if Nat.eqb n 9 then String backslash "t"
  else if Nat.eqb n 10 then String backslash "n"
  else if Nat.eqb n 12 then String backslash "f"
  else if Nat.eqb n 13 then String backslash "r"
  else if Nat.eqb n 34 then String backslash (String dquote "")
  else if Nat.eqb n 92 then String backslash (String backslash "")
  else if Nat.ltb n 32 then
    String backslash
      (String "u" (String "0" (String "0"
         (String (hex_digit (n / 16)) (String (hex_digit (n mod 16)) "")))))
  else String c "".

Fixpoint escape (s : string) : string :=
  match s with
  | EmptyString => ""
  | String c r => escape_char c ++ escape r
  end.

Definition quote (s : string) : string :=
  String dquote (escape s ++ String dquote "").

Fixpoint join (sep : string) (parts : list string) : string :=
  match parts with
  | [] => ""
  | [p] => p
  | p :: rest => p ++ sep ++ join sep rest
  end.

(** What serialising one property yields: a text, nothing ([undefined]
    is left out of objects and written [null] in arrays), or a thrown
    TypeError. *)
Inductive text : Type :=
| Text (s : string)
| Omitted
| TypeError.

Fixpoint array_parts (ts : list text) : option (list string) :=
  match ts with
  | [] => Some []
  | Text s :: r => option_map (cons s) (array_parts r)
  | Omitted :: r => option_map (cons "null") (array_parts r)
  | TypeError :: _ => None
  end.

Fixpoint object_parts (ts : list (string * text)) : option (list string) :=
  match ts with
  | [] => Some []
  | (k, Text s) :: r =>
      option_map (cons (quote k ++ ":" ++ s)) (object_parts r)
  | (_, Omitted) :: r => object_parts r
  | (_, TypeError) :: _ => None
  end.

Fixpoint stringify_value (v : value) : text :=
  match v with
  | Undefined => Omitted
  | Null => Text "null"
  | Boolean true => Text "true"
  | Boolean false => Text "false"
  | Num n => Text (number_text n)
  | Dec m k => Text (decimal_text m k)
  | Str s => Text (quote s)
  | BigInt _ => TypeError
  | Arr items =>
      match array_parts (map stringify_value items) with
      | Some parts => Text ("[" ++ join "," parts ++ "]")
      | None => TypeError
      end
  | Obj members =>
      match object_parts
              (map (fun m => (fst m, stringify_value (snd m))) members) with
      | Some parts => Text ("{" ++ join "," parts ++ "}")
      | None => TypeError
      end
  end.

(** [JSON.stringify] of an object: [None] is the thrown TypeError.  (The
    store only ever serialises an envelope, which is an object.) *)
Definition stringify (v : value) : option string :=
  match stringify_value v with
  | Text s => Some s
  | Omitted | TypeError => None
  end.

(** *** JSON.parse *)

Definition is_ws (c : ascii) : bool :=
  let n := nat_of_ascii c in
  Nat.eqb n 32 || Nat.eqb n 9 || Nat.eqb n 10 || Nat.eqb n 13.

Fixpoint skip_ws (s : string) : string :=
  match s with
  | String c r => if is_ws c then skip_ws r else s
  | EmptyString => ""
  end.

Definition is_digit (c : ascii) : bool :=
  let n := nat_of_ascii c in Nat.leb 48 n && Nat.leb n 57.

Fixpoint span_digits (s : string) : string * string :=
  match s with
  | String c r =>
      if is_digit c
      then let (d, r') := span_digits r in (String c d, r')
      else ("", s)
  | EmptyString => ("", "")
  end.

Definition digit_value (c : ascii) : Z := Z.of_nat (nat_of_ascii c - 48).

(** The number written by the digits [s], after the digits read so far. *)
Fixpoint digits_acc (acc : Z) (s : string) : Z :=
  match s with
  | String c r => digits_acc (10 * acc + digit_value c) r
  | EmptyString => acc
  end.

(** [m / 10^k] as a value: an integer when the division is exact. *)
Fixpoint reduce (m : Z) (k : nat) : value :=
  match k with
  | O => Num m
  | S k' =>
      if (m mod 10 =? 0)%Z then reduce (m / 10) k'
      else Dec m (Pos.of_succ_nat k')
  end.

(** [m * 10^e] as a value. *)
Definition make_number (m e : Z) : value :=
  if (0 <=? e)%Z then Num (m * 10 ^ e) else reduce m (Z.to_nat (- e)).

(** The fraction of a number literal: a point and at least one digit, or
    nothing. *)
Definition read_fraction (s : string) : option (string * string) :=
  match s with
  | String c r =>
      if Ascii.eqb c "."
      then
        match span_digits r with
        | (EmptyString, _) => None
        | (f, r') => Some (f, r')
        end
      else Some ("", s)
  | EmptyString => Some ("", "")
  end.

(** The exponent of a number literal: [e] or [E], an optional sign and at
    least one digit, or nothing. *)
Definition read_exponent (s : string) : option (Z * string) :=
  match s with
  | String c r =>
      if Ascii.eqb c "e" || Ascii.eqb c "E"
      then
        let (negative, r1) :=
          match r with
          | String g r' =>
              if Ascii.eqb g "-" then (true, r')
              else if Ascii.eqb g "+" then (false, r')
              else (false, r)
          | EmptyString => (false, r)
          end in
        match span_digits r1 with
        | (EmptyString, _) => None
        | (x, r2) =>
            Some (if negative then (- digits_acc 0 x)%Z else digits_acc 0 x,
                  r2)
        end
      else Some (0%Z, s)
  | EmptyString => Some (0%Z, "")
  end.

(** A number literal of the JSON grammar after its sign: an integer part
    without a leading zero, an optional fraction, an optional exponent. *)
Definition parse_unsigned (negative : bool) (s : string) :
  option (value * string) :=
  match span_digits s with
  | (EmptyString, _) => None
  | (String c i, s2) =>
      if Ascii.eqb c "0" && negb (String.eqb i "") then None
      else
        match read_fraction s2 with
        | Some (f, s3) =>
            match read_exponent s3 with
            | Some (x, s4) =>
                let m := digits_acc 0 (String c i ++ f) in
                Some (make_number (if negative then - m else m)
                        (x - Z.of_nat (String.length f)), s4)
            | None => None
            end
        | None => None
        end
  end.

Definition parse_number (s : string) : option (value * string) :=
  match s with
  | String c r =>
      if Ascii.eqb c "-" then parse_unsigned true r
      else parse_unsigned false s
  | EmptyString => None
  end.

Definition hex_value (c : ascii) : option nat :=
  let n := nat_of_ascii c in
  if Nat.leb 48 n && Nat.leb n 57 then Some (n - 48)
  else if Nat.leb 97 n && Nat.leb n 102 then Some (n - 87)
  else if Nat.leb 65 n && Nat.leb n 70 then Some (n - 55)
  else None.

(** The code unit of a [\uXXXX] escape. *)
Definition unicode_escape (h1 h2 h3 h4 : ascii) : option N :=
  match hex_value h1, hex_value h2, hex_value h3, hex_value h4 with
  | Some a, Some b, Some c, Some d =>
      Some (4096 * N.of_nat a + 256 * N.of_nat b + 16 * N.of_nat c
            + N.of_nat d)%N
  | _, _, _, _ => None
  end.

(** The bytes of the code point [n] in UTF-8.  A surrogate on its own is
    kept as the three bytes of a code point below 65536, and [escape]
    writes those bytes as they are. *)
Definition utf8 (n : N) : string :=
  if (n <? 128)%N then String (ascii_of_N n) ""
  else if (n <? 2048)%N then
    String (ascii_of_N (192 + n / 64))
      (String (ascii_of_N (128 + n mod 64)) "")
  else if (n <? 65536)%N then
    String (ascii_of_N (224 + n / 4096))
      (String (ascii_of_N (128 + (n / 64) mod 64))
         (String (ascii_of_N (128 + n mod 64)) ""))
  else
    String (ascii_of_N (240 + n / 262144))
      (String (ascii_of_N (128 + (n / 4096) mod 64))
         (String (ascii_of_N (128 + (n / 64) mod 64))
            (String (ascii_of_N (128 + n mod 64)) ""))).

Definition high_surrogate (n : N) : bool := ((55296 <=? n) && (n <? 56320))%N.
Definition low_surrogate (n : N) : bool := ((56320 <=? n) && (n <? 57344))%N.

(** The code point of a surrogate pair. *)
Definition pair_code (hi lo : N) : N :=
  (65536 + 1024 * (hi - 55296) + (lo - 56320))%N.

Definition simple_escape (c : ascii) : option ascii :=
  let n := nat_of_ascii c in
  if Nat.eqb n 34 then Some dquote
  else if Nat.eqb n 92 then Some backslash
  else if Nat.eqb n 47 then Some (ascii_of_nat 47)
  else if Nat.eqb n 98 then Some (ascii_of_nat 8)
  else if Nat.eqb n 102 then Some (ascii_of_nat 12)
  else if Nat.eqb n 110 then Some (ascii_of_nat 10)
  else if Nat.eqb n 114 then Some (ascii_of_nat 13)
  else if Nat.eqb n 116 then Some (ascii_of_nat 9)
  else None.

Definition push (c : ascii) (r : option (string * string)) :
  option (string * string) :=
  match r with
  | Some (body, rest) => Some (String c body, rest)
  | None => None
  end.

Fixpoint push_all (s : string) (r : option (string * string)) :
  option (string * string) :=
  match s with
  | String c s' => push c (push_all s' r)
  | EmptyString => r
  end.

(** The characters of a string literal after its opening quote, up to and
    including the closing quote. *)
Fixpoint parse_chars (s : string) : option (string * string) :=
  match s with
  | EmptyString => None
  | String c r =>
      if Ascii.eqb c dquote then Some ("", r)
      else if Ascii.eqb c backslash then
        match r with
        | String e r' =>
            if Ascii.eqb e "u" then
              match r' with
              | String h1 (String h2 (String h3 (String h4 r''))) =>
                  match unicode_escape h1 h2 h3 h4 with
                  | Some u =>
                      if high_surrogate u then
                        match r'' with
                        | String b (String u' (String l1 (String l2
                            (String l3 (String l4 r3))))) =>
                            match unicode_escape l1 l2 l3 l4 with
                            | Some lo =>
                                if Ascii.eqb b backslash && Ascii.eqb u' "u"
                                   && low_surrogate lo
                                then push_all (utf8 (pair_code u lo))
                                       (parse_chars r3)
                                else push_all (utf8 u) (parse_chars r'')
                            | None => push_all (utf8 u) (parse_chars r'')
                            end
                        | _ => push_all (utf8 u) (parse_chars r'')
                        end
                      else push_all (utf8 u) (parse_chars r'')
                  | None => None
                  end
              | _ => None
              end
            else
              match simple_escape e with
              | Some ch => push ch (parse_chars r')
              | None => None
              end
        | EmptyString => None
        end
      else if Nat.ltb (nat_of_ascii c) 32 then None
      else push c (parse_chars r)
  end.

(** The rest of [s] after [word], when [s] starts with it. *)
Fixpoint strip (word s : string) : option string :=
  match word with
  | EmptyString => Some s
  | String a w =>
      match s with
      | String b r => if Ascii.eqb a b then strip w r else None
      | EmptyString => None
      end
  end.

Definition literal (word : string) (s : string) (v : value) :
  option (value * string) :=
  match strip word s with
  | Some rest => Some (v, rest)
  | None => None
  end.

(** The rest of [s] after optional white space and the character [c]. *)
Definition expect (c : ascii) (s : string) : option string :=
  match skip_ws s with
  | String a r => if Ascii.eqb a c then Some r else None
  | EmptyString => None
  end.

Fixpoint parse_value (fuel : nat) (s : string) {struct fuel} :
  option (value * string) :=
  match fuel with
  | O => None
  | S fuel' =>
      match skip_ws s with
      | EmptyString => None
      | String c r =>
          if Ascii.eqb c "n" then literal "ull" r Null
          else if Ascii.eqb c "t" then literal "rue" r (Boolean true)
          else if Ascii.eqb c "f" then literal "alse" r (Boolean false)
          else if Ascii.eqb c dquote then
            match parse_chars r with
            | Some (str, r') => Some (Str str, r')
            | None => None
            end
          else if Ascii.eqb c "[" then
            match expect "]" r with
            | Some r' => Some (Arr [], r')
            | None =>
                match parse_elements fuel' r with
                | Some (items, r') => Some (Arr items, r')
                | None => None
                end
            end
          else if Ascii.eqb c "{" then
            match expect "}" r with
            | Some r' => Some (Obj [], r')
            | None =>
                match parse_members fuel' r with
                | Some (members, r') => Some (Obj members, r')
                | None => None
                end
            end
          else
            parse_number (String c r)
      end
  end
with parse_elements (fuel : nat) (s : string) {struct fuel} :
  option (list value * string) :=
  match fuel with
  | O => None
  | S fuel' =>
      match parse_value fuel' s with
      | Some (v, r) =>
          match expect "," r with
          | Some r' =>
              match parse_elements fuel' r' with
              | Some (items, r'') => Some (v :: items, r'')
              | None => None
              end
          | None =>
              match expect "]" r with
              | Some r' => Some ([v], r')
              | None => None
              end
          end
      | None => None
      end
  end
with parse_members (fuel : nat) (s : string) {struct fuel} :
  option (list (string * value) * string) :=
  match fuel with
  | O => None
  | S fuel' =>
      match expect dquote s with
      | Some r =>
          match parse_chars r with
          | Some (k, r1) =>
              match expect ":" r1 with
              | Some r2 =>
                  match parse_value fuel' r2 with
                  | Some (v, r3) =>
                      match expect "," r3 with
                      | Some r4 =>
                          match parse_members fuel' r4 with
                          | Some (ms, r5) => Some ((k, v) :: ms, r5)
                          | None => None
                          end
                      | None =>
                          match expect "}" r3 with
                          | Some r4 => Some ([(k, v)], r4)
                          | None => None
                          end
                      end
                  | None => None
                  end
              | None => None
              end
          | None => None
          end
      | None => None
      end
  end.

(** [JSON.parse]: [None] is the thrown SyntaxError.  Members of an object
    are kept as written; a repeated name is resolved on access ([prop]),
    where the last one wins as in JavaScript. *)
Definition parse (s : string) : option value :=
  match parse_value (S (String.length s)) s with
  | Some (v, rest) =>
      match skip_ws rest with
      | EmptyString => Some v
      | _ => None
      end
  | None => None
  end.

(** *** Property access, truthiness, comparison *)

(** The member called [name]; of several, the last one written. *)
Fixpoint lookup (name : string) (members : list (string * value)) :
  option value :=
  match members with
  | [] => None
  | (k, x) :: r =>
      match lookup name r with
      | Some later => Some later
      | None => if String.eqb k name then Some x else None
      end
  end.

(** [o.name] for the names [v] and [e], which no prototype defines:
    own members of an object, [undefined] on anything else. *)
Definition prop (name : string) (o : value) : value :=
  match o with
  | Obj members =>
      match lookup name members with
      | Some x => x
      | None => Undefined
      end
  | _ => Undefined
  end.

Definition truthy (v : value) : bool :=
  match v with
  | Undefined | Null => false
  | Boolean b => b
  | Num n | BigInt n | Dec n _ => negb (n =? 0)%Z
  | Str s => negb (String.eqb s "")
  | Arr _ | Obj _ => true
  end.

Definition is_undefined (v : value) : bool :=
  match v with Undefined => true | _ => false end.

(** *** ToNumber *)

(** A JavaScript number, as far as a comparison sees it. *)
Inductive number : Type :=
| Int (n : Z)
| Frac (m : Z) (k : positive)
| Infinity (negative : bool)
| NaN.

Definition number_of (v : value) : number :=
  match v with
  | Num n => Int n
  | Dec m k => Frac m k
  | _ => NaN
  end.

Definition ascii_space (c : ascii) : bool :=
  let n := nat_of_ascii c in
  Nat.eqb n 9 || Nat.eqb n 10 || Nat.eqb n 11 || Nat.eqb n 12
  || Nat.eqb n 13 || Nat.eqb n 32.

(** U+00A0, in UTF-8. *)
Definition space2 (a b : ascii) : bool :=
  Nat.eqb (nat_of_ascii a) 194 && Nat.eqb (nat_of_ascii b) 160.

(** U+1680, U+2000 to U+200A, U+2028, U+2029, U+202F, U+205F, U+3000 and
    U+FEFF, in UTF-8. *)
Definition space3 (a b c : ascii) : bool :=
  let x := nat_of_ascii a in
  let y := nat_of_ascii b in
  let z := nat_of_ascii c in
  (Nat.eqb x 225 && Nat.eqb y 154 && Nat.eqb z 128)
  || (Nat.eqb x 226 && Nat.eqb y 128
      && ((Nat.leb 128 z && Nat.leb z 138) || Nat.eqb z 168
          || Nat.eqb z 169 || Nat.eqb z 175))
  || (Nat.eqb x 226 && Nat.eqb y 129 && Nat.eqb z 159)
  || (Nat.eqb x 227 && Nat.eqb y 128 && Nat.eqb z 128)
  || (Nat.eqb x 239 && Nat.eqb y 187 && Nat.eqb z 191).

(** [s] without its leading white space and line terminators. *)
Fixpoint trim_left (s : string) : string :=
  match s with
  | String a r =>
      if ascii_space a then trim_left r
      else
        match r with
        | String b r2 =>
            if space2 a b then trim_left r2
            else
              match r2 with
              | String c r3 => if space3 a b c then trim_left r3 else s
              | EmptyString => s
              end
        | EmptyString => s
        end
  | EmptyString => ""
  end.

Fixpoint trim_right (s : string) : string :=
  match s with
  | String c r =>
      if String.eqb (trim_left s) "" then "" else String c (trim_right r)
  | EmptyString => ""
  end.

Definition trim (s : string) : string := trim_right (trim_left s).

(** The number written by the digits [s] in base [radix], when every
    character of [s] is a digit of that base. *)
Fixpoint radix_acc (radix : nat) (acc : Z) (s : string) : option Z :=
  match s with
  | String c r =>
      match hex_value c with
      | Some d =>
          if Nat.ltb d radix
          then radix_acc radix (Z.of_nat radix * acc + Z.of_nat d) r
          else None
      | None => None
      end
  | EmptyString => Some acc
  end.

Definition radix_literal (radix : nat) (s : string) : number :=
  match s with
  | EmptyString => NaN
  | _ =>
      match radix_acc radix 0 s with
      | Some n => Int n
      | None => NaN
      end
  end.

(** StrUnsignedDecimalLiteral: [Infinity], or digits with an optional
    point and an optional exponent, at least one digit before the
    exponent. *)
Definition decimal_literal (negative : bool) (s : string) : number :=
  if String.eqb s "Infinity" then Infinity negative
  else
    let (i, r1) := span_digits s in
    let (f, r2) :=
      match r1 with
      | String c r => if Ascii.eqb c "." then span_digits r else ("", r1)
      | EmptyString => ("", r1)
      end in
    if String.eqb i "" && String.eqb f "" then NaN
    else
      match read_exponent r2 with
      | Some (x, EmptyString) =>
          let m := digits_acc 0 (i ++ f) in
          number_of (make_number (if negative then - m else m)
                       (x - Z.of_nat (String.length f)))
      | _ => NaN
      end.

(** StringToNumber. *)
Definition string_to_number (s : string) : number :=
  match trim s with
  | EmptyString => Int 0
  | String c r =>
      if Ascii.eqb c "-" then decimal_literal true r
      else if Ascii.eqb c "+" then decimal_literal false r
      else
        match r with
        | String p r' =>
            if Ascii.eqb c "0" && (Ascii.eqb p "x" || Ascii.eqb p "X")
            then radix_literal 16 r'
            else if Ascii.eqb c "0" && (Ascii.eqb p "o" || Ascii.eqb p "O")
            then radix_literal 8 r'
            else if Ascii.eqb c "0" && (Ascii.eqb p "b" || Ascii.eqb p "B")
            then radix_literal 2 r'
            else decimal_literal false (String c r)
        | EmptyString => decimal_literal false (String c r)
        end
  end.

(** ToString, as far as ToNumber of an array needs it. *)
Fixpoint to_string (v : value) : string :=
  match v with
  | Undefined => "undefined"
  | Null => "null"
  | Boolean true => "true"
  | Boolean false => "false"
  | Num n | BigInt n => number_text n
  | Dec m k => decimal_text m k
  | Str s => s
  | Arr items =>
      join ","
        (map (fun x =>
                match x with
                | Undefined | Null => ""
                | _ => to_string x
                end) items)
  | Obj _ => "[object Object]"
  end.

(** ToNumber. *)
Definition to_number (v : value) : number :=
  match v with
  | Undefined => NaN
  | Null => Int 0
  | Boolean b => Int (if b then 1 else 0)
  | Num n | BigInt n => Int n
  | Dec m k => Frac m k
  | Str s => string_to_number s
  | Arr _ => string_to_number (to_string v)
  | Obj _ => NaN
  end.

(** [t > x] for an integer [t]: false when [x] converts to NaN.  A
    fraction is compared as the decimal it is, which is the comparison of
    doubles whenever a double holds the fraction exactly. *)
Definition gt (t : Z) (x : value) : bool :=
  match to_number x with
  | Int n => (n <? t)%Z
  | Frac m k => (m <? t * 10 ^ Zpos k)%Z
  | Infinity negative => negative
  | NaN => false
  end.



(** *** Vocabulary of the round-trip proof *)

(** Characters a JSON text can start with. *)
Definition starts_value (c : ascii) : bool :=
  is_digit c || Ascii.eqb c "-" || Ascii.eqb c "n" || Ascii.eqb c "t"
  || Ascii.eqb c "f" || Ascii.eqb c dquote || Ascii.eqb c "["
  || Ascii.eqb c "{".

Definition no_digit_head (s : string) : Prop :=
  match s with
  | String c _ => is_digit c = false
  | EmptyString => True
  end.

(** Characters that continue a number literal. *)
Definition number_char (c : ascii) : bool :=
  is_digit c || Ascii.eqb c "." || Ascii.eqb c "e" || Ascii.eqb c "E".

Definition ends_number (s : string) : Prop :=
  match s with
  | String c _ => number_char c = false
  | EmptyString => True
  end.

Fixpoint all_digits (s : string) : bool :=
  match s with
  | String c r => is_digit c && all_digits r
  | EmptyString => true
  end.

Definition items_size (items : list value) : nat :=
  list_sum (map (fun x => S (size x)) items).

Definition members_size (members : list (string * value)) : nat :=
  list_sum (map (fun m => S (size (snd m))) members).

(** What the round trip of one value says. *)
Definition round_trips (v : value) : Prop :=
  json_value v = true ->
  exists s,
    stringify_value v = Text s /\
    size v <= String.length s /\
    (exists c r, s = String c r /\ starts_value c = true) /\
    forall fuel rest,
      size v <= fuel -> ends_number rest ->
      parse_value fuel (s ++ rest) = Some (v, rest).

End JSON.

Import JSON.

(** ** String helpers of the host *)

(** [s.startsWith(pre)] *)
Definition startsWith (s pre : string) : bool := String.prefix pre s.

(** [s.slice(n)] for [0 <= n] *)
Fixpoint slice (n : nat) (s : string) : string :=
  match n, s with
  | S n', String _ r => slice n' r
  | _, _ => s
  end.

(** ** The [Map<string, string>] of [memoryStorage]

    Bindings in insertion order.  A Map holds one binding per key; the
    operations below are those of JavaScript on such lists ([delete] drops
    every binding of the key, of which there is at most one). *)
Module JSMap.

Definition t : Type := list (string * string).

Definition empty : t := [].

Fixpoint has (k : string) (m : t) : bool :=
  match m with
  | [] => false
  | (k', _) :: r => if String.eqb k' k then true else has k r
  end.

Fixpoint get (k : string) (m : t) : option string :=
  match m with
  | [] => None
  | (k', v) :: r => if String.eqb k' k then Some v else get k r
  end.

Fixpoint set (k v : string) (m : t) : t :=
  match m with
  | [] => [(k, v)]
  | (k', v') :: r =>
      if String.eqb k' k then (k, v) :: r else (k', v') :: set k v r
  end.

Fixpoint delete (k : string) (m : t) : t :=
  match m with
  | [] => []
  | (k', v') :: r =>
      if String.eqb k' k then delete k r else (k', v') :: delete k r
  end.

Definition keys (m : t) : list string := map fst m.

Definition size (m : t) : nat := List.length m.

End JSMap.

(** ** The Storage interface

    The members of the DOM [Storage] interface that the store calls.  A
    mutator that throws returns [None]; the area is then as it was.  The
    readers [length], [getItem] and [key] always return: the store calls
    them outside any [try], and an area that throws on reading is not
    among the backends described here. *)
Module Storage.

Class Storage (B : Type) : Type := {
  length : B -> nat;
  clear : B -> option B;
  getItem : string -> B -> option string;
  key : nat -> B -> option string;
  removeItem : string -> B -> option B;
  setItem : string -> string -> B -> option B
}.

End Storage.

(** In-memory fallback for SSR / non-browser environments. *)
#[export] Instance memoryStorage : Storage.Storage JSMap.t := {|
  Storage.length m := JSMap.size m;
  Storage.clear _ := Some JSMap.empty;
  Storage.getItem k m := if JSMap.has k m then JSMap.get k m else None;
  Storage.key i m := nth_error (JSMap.keys m) i;
  Storage.removeItem k m := Some (JSMap.delete k m);
  Storage.setItem k v m := Some (JSMap.set k v m)
|}.

(** A host storage area ([window.localStorage], [window.sessionStorage]):
    the same key-value surface, with a quota on the characters it holds,
    and which the host may lock, every mutator then throwing. *)
Record Host : Type := mkHost {
  items : JSMap.t;
  quota : nat;
  locked : bool
}.

Definition usage (m : JSMap.t) : nat :=
  list_sum (map (fun kv => String.length (fst kv) + String.length (snd kv)) m).

#[export] Instance hostStorage : Storage.Storage Host := {|
  Storage.length h := JSMap.size (items h);
  Storage.clear h :=
    if locked h then None else Some (mkHost JSMap.empty (quota h) false);
  Storage.getItem k h :=
    if JSMap.has k (items h) then JSMap.get k (items h) else None;
  Storage.key i h := nth_error (JSMap.keys (items h)) i;
  Storage.removeItem k h :=
    if locked h then None
    else Some (mkHost (JSMap.delete k (items h)) (quota h) false);
  Storage.setItem k v h :=
    if locked h then None
    else
      let m := JSMap.set k v (items h) in
      if Nat.leb (usage m) (quota h)
      then Some (mkHost m (quota h) false)
      else None
|}.

(** ** Change events and listeners *)

Inductive Change : Type :=
| ChSet (key : string)
| ChRemove (key : string)
| ChClear.

(** The functions handed to the emitter.  [User id] is a caller's callback,
    known by its identity; calling it is recorded in the world.  [Scoped c
    prefix fn] is the arrow function that [withPrefix(...).subscribe(fn)]
    creates, [c] being the identity of that closure. *)
Inductive Fn : Type :=
| User (id : nat)
| Scoped (closure : nat) (prefix : string) (fn : Fn).

Fixpoint Fn_eqb (f g : Fn) : bool :=
  match f, g with
  | User a, User b => Nat.eqb a b
  | Scoped c p f', Scoped d q g' =>
      Nat.eqb c d && String.eqb p q && Fn_eqb f' g'
  | _, _ => false
  end.

(** The callbacks a call [fn(ev)] ends up invoking, with their argument. *)
Fixpoint call (fn : Fn) (ev : Change) : list (nat * Change) :=
  match fn with
  | User id => [(id, ev)]
  | Scoped _ prefix fn' =>
      match ev with
      | ChClear => call fn' ev
      | ChSet k =>
          if startsWith k (prefix ++ ":")
          then call fn' (ChSet (slice (String.length prefix + 1) k))
          else []
      | ChRemove k =>
          if startsWith k (prefix ++ ":")
          then call fn' (ChRemove (slice (String.length prefix + 1) k))
          else []
      end
  end.

(** Whether calling [fn] can reach the callback [id]. *)
Fixpoint reaches (id : nat) (fn : Fn) : bool :=
  match fn with
  | User id' => Nat.eqb id id'
  | Scoped _ _ fn' => reaches id fn'
  end.

(** [Set<fn>]: insertion order, one entry per function. *)
Definition Set_add (fn : Fn) (fns : list Fn) : list Fn :=
  if existsb (Fn_eqb fn) fns then fns else fns ++ [fn].

Definition Set_delete (fn : Fn) (fns : list Fn) : list Fn :=
  filter (fun g => negb (Fn_eqb fn g)) fns.

(** ** The world of one store instance, and the monad of its operations *)

Record World (B : Type) : Type := mkWorld {
  backing : B;                       (* the Storage the store writes to *)
  fns : list Fn;                     (* the emitter's listeners *)
  clock : Z;                         (* what Date.now() reads *)
  published : list Change;           (* every event given to emit, oldest first *)
  delivered : list (nat * Change);   (* every callback invocation, oldest first *)
  closures : nat                     (* closures allocated so far *)
}.

Arguments mkWorld {B}.
Arguments backing {B}.
Arguments fns {B}.
Arguments clock {B}.
Arguments published {B}.
Arguments delivered {B}.
Arguments closures {B}.

Definition with_backing {B} (b : B) (w : World B) : World B :=
  mkWorld b (fns w) (clock w) (published w) (delivered w) (closures w).

Definition with_fns {B} (l : list Fn) (w : World B) : World B :=
  mkWorld (backing w) l (clock w) (published w) (delivered w) (closures w).

Definition with_clock {B} (t : Z) (w : World B) : World B :=
  mkWorld (backing w) (fns w) t (published w) (delivered w) (closures w).

(** How a call ends: it returns, it throws, or the model ran out of fuel
    (only [keys] loops; [keys_total] shows its fuel is enough). *)
Inductive outcome (A : Type) : Type :=
| Ret (a : A)
| Throw
| OutOfFuel.

Arguments Ret {A}.
Arguments Throw {A}.
Arguments OutOfFuel {A}.

Definition M (B A : Type) : Type := World B -> outcome A * World B.

Definition ret {B A} (a : A) : M B A := fun w => (Ret a, w).

Definition bind {B A C} (m : M B A) (f : A -> M B C) : M B C :=
  fun w =>
    match m w with
    | (Ret a, w') => f a w'
    | (Throw, w') => (Throw, w')
    | (OutOfFuel, w') => (OutOfFuel, w')
    end.

Declare Scope store_scope.
Delimit Scope store_scope with store.

Notation "x <- m ;; k" := (bind m (fun x => k))
  (at level 100, m at next level, right associativity) : store_scope.
Notation "m ;; k" := (bind m (fun _ => k))
  (at level 100, right associativity) : store_scope.

Open Scope store_scope.

(** [try { body } catch { handler }] *)
Definition try_catch {B A} (body handler : M B A) : M B A :=
  fun w =>
    match body w with
    | (Throw, w') => handler w'
    | r => r
    end.

(** [try { body } finally { final }]: [final] runs either way, and what
    [body] threw is thrown again after it. *)
Definition try_finally {B A} (body : M B A) (final : M B unit) : M B A :=
  fun w =>
    match body w with
    | (Ret a, w') => (_ <- final ;; ret a) w'
    | (Throw, w') =>
        match final w' with
        | (OutOfFuel, w'') => (OutOfFuel, w'')
        | (_, w'') => (Throw, w'')
        end
    | (OutOfFuel, w') => (OutOfFuel, w')
    end.

Fixpoint for_each {B A} (l : list A) (body : A -> M B unit) : M B unit :=
  match l with
  | [] => ret tt
  | x :: r => body x ;; for_each r body
  end.

(** [const now = () => Date.now()] *)
Definition now {B} : M B Z := fun w => (Ret (clock w), w).

(** ** types.ts *)

Record SetOptions : Type := mkSetOptions { ttl : option Z }.

(** [Stored<T>]: the object literal [{ v, e }] or [{ v }]. *)
Definition Stored (v : value) (e : option Z) : value :=
  match e with
  | Some e => Obj [("v", v); ("e", Num e)]
  | None => Obj [("v", v)]
  end.

Definition Unsubscribe (B : Type) : Type := M B unit.

Record Store (B : Type) : Type := mkStore {
  set : string -> value -> option SetOptions -> M B unit;
  get : string -> M B value;
  remove : string -> M B unit;
  clear : M B unit;
  has : string -> M B bool;
  keys : M B (list string);
  subscribe : Fn -> M B (Unsubscribe B)
}.

Arguments set {B}.
Arguments get {B}.
Arguments remove {B}.
Arguments clear {B}.
Arguments has {B}.
Arguments keys {B}.
Arguments subscribe {B}.

(** ** index.ts *)

(** Safe JSON.parse with undefined fallback *)
Definition safeParse (raw : option string) : value :=
  match raw with
  | None => Undefined
  | Some s =>
      if String.eqb s "" then Undefined
      else
        match JSON.parse s with
        | Some v => v
        | None => Undefined
        end
  end.

(** [opts?.ttl], when it is truthy *)
Definition truthy_ttl (opts : option SetOptions) : option Z :=
  match opts with
  | Some o =>
      match ttl o with
      | Some t => if (t =? 0)%Z then None else Some t
      | None => None
      end
  | None => None
  end.

(** The host's [storage] event, as far as the listener reads it. *)
Record StorageEvent : Type := mkStorageEvent {
  same_area : bool;            (* e.storageArea === store *)
  ev_key : option string;      (* e.key *)
  newValue : option string     (* e.newValue *)
}.

Section Make.

Context {B : Type} `{Storage.Storage B}.

(** *** createEmitter *)

Definition on (fn : Fn) : M B (Unsubscribe B) :=
  fun w =>
    (Ret (fun w' => (Ret tt, with_fns (Set_delete fn (fns w')) w')),
     with_fns (Set_add fn (fns w)) w).

Definition emit (c : Change) : M B unit :=
  fun w =>
    (Ret tt,
     mkWorld (backing w) (fns w) (clock w)
       (published w ++ [c])
       (delivered w ++ flat_map (fun fn => call fn c) (fns w))
       (closures w)).

(** *** Calls on [backing] *)

Definition backing_getItem (k : string) : M B (option string) :=
  fun w => (Ret (Storage.getItem k (backing w)), w).

Definition backing_setItem (k v : string) : M B unit :=
  fun w =>
    match Storage.setItem k v (backing w) with
    | Some b => (Ret tt, with_backing b w)
    | None => (Throw, w)
    end.

Definition backing_removeItem (k : string) : M B unit :=
  fun w =>
    match Storage.removeItem k (backing w) with
    | Some b => (Ret tt, with_backing b w)
    | None => (Throw, w)
    end.

Definition backing_clear : M B unit :=
  fun w =>
    match Storage.clear (backing w) with
    | Some b => (Ret tt, with_backing b w)
    | None => (Throw, w)
    end.

Definition JSON_stringify (v : value) : M B string :=
  fun w =>
    match JSON.stringify v with
    | Some s => (Ret s, w)
    | None => (Throw, w)
    end.

(** *** The members of [api] in [make] *)

Definition api_set (key : string) (value : value)
  (opts : option SetOptions) : M B unit :=
  payload <-
    match truthy_ttl opts with
    | Some t => n <- now ;; ret (Stored value (Some (n + t)%Z))
    | None => ret (Stored value None)
    end ;;
  try_catch
    (raw <- JSON_stringify payload ;;
     backing_setItem key raw ;;
     emit (ChSet key))
    (ret tt).

Definition api_get (key : string) : M B value :=
  raw <- backing_getItem key ;;
  let parsed := safeParse raw in
  if negb (truthy parsed) then ret Undefined
  else
    expired <-
      (if truthy (prop "e" parsed)
       then n <- now ;; ret (JSON.gt n (prop "e" parsed))
       else ret false) ;;
    if (expired : bool) then
      try_catch (backing_removeItem key) (ret tt) ;;
      emit (ChRemove key) ;;
      ret Undefined
    else ret (prop "v" parsed).

Definition api_remove (key : string) : M B unit :=
  try_finally (backing_removeItem key) (emit (ChRemove key)).

Definition api_clear : M B unit :=
  try_finally backing_clear (emit ChClear).

Definition api_has (key : string) : M B bool :=
  v <- api_get key ;; ret (negb (is_undefined v)).

(** The [for] loop of [keys], from index [i] with [ks] collected so far.
    The bound [backing.length] is read again at every turn. *)
Fixpoint keys_loop (fuel i : nat) (ks : list string) : M B (list string) :=
  fun w =>
    if Nat.ltb i (Storage.length (backing w)) then
      match fuel with
      | O => (OutOfFuel, w)
      | S fuel' =>
          match Storage.key i (backing w) with
          | None => keys_loop fuel' (S i) ks w
          | Some k =>
              if String.eqb k "" then keys_loop fuel' (S i) ks w
              else
                (b <- api_has k ;;
                 keys_loop fuel' (S i) (if (b : bool) then ks ++ [k] else ks))
                  w
          end
      end
    else (Ret ks, w).

Definition api_keys : M B (list string) :=
  fun w => keys_loop (Storage.length (backing w)) 0 [] w.

Definition api_subscribe (fn : Fn) : M B (Unsubscribe B) := on fn.

Definition make : Store B :=
  mkStore B api_set api_get api_remove api_clear api_has api_keys
    api_subscribe.

(** The listener wired to the window's [storage] events (browser only, and
    only when using real Storage). *)
Definition storage_listener (e : StorageEvent) : M B unit :=
  if negb (same_area e) then ret tt
  else
    match ev_key e with
    | None => emit ChClear
    | Some k =>
        match newValue e with
        | None => emit (ChRemove k)
        | Some _ => emit (ChSet k)
        end
    end.

(** *** Shorthands for the statements below *)

(** The envelope [set] builds. *)
Definition payload_of (w : World B) (v : value) (opts : option SetOptions) :
  value :=
  Stored v (option_map (Z.add (clock w)) (truthy_ttl opts)).

(** The world after [emit(c)], with [b] for backend. *)
Definition emitted (c : Change) (b : B) (w : World B) : World B :=
  mkWorld b (fns w) (clock w) (published w ++ [c])
    (delivered w ++ flat_map (fun fn => call fn c) (fns w)) (closures w).

(** Whether [get] finds the parsed entry expired at time [t]. *)
Definition is_expired (t : Z) (parsed : value) : bool :=
  truthy parsed && truthy (prop "e" parsed) && JSON.gt t (prop "e" parsed).


(** What [has(k)] answers on the raw entry [raw] at time [t], when the
    entry is not expired. *)
Definition live_entry (t : Z) (raw : option string) : bool :=
  let parsed := safeParse raw in
  negb (is_expired t parsed) &&
  negb (is_undefined (if truthy parsed then prop "v" parsed else Undefined)).

(** *** withPrefix *)

Definition fresh_closure : M B nat :=
  fun w =>
    (Ret (closures w),
     mkWorld (backing w) (fns w) (clock w) (published w) (delivered w)
       (S (closures w))).

Definition withPrefix (store : Store B) (prefix : string) : Store B :=
  let p := fun k : string => prefix ++ ":" ++ k in
  mkStore B
    (fun k v o => set store (p k) v o)
    (fun k => get store (p k))
    (fun k => remove store (p k))
    (ks <- keys store ;;
     for_each ks
       (fun k =>
          if startsWith k (prefix ++ ":") then remove store k else ret tt))
    (fun k => has store (p k))
    (ks <- keys store ;;
     ret (map (slice (String.length prefix + 1))
            (filter (fun k => startsWith k (prefix ++ ":")) ks)))
    (fun fn =>
       c <- fresh_closure ;;
       subscribe store (Scoped c prefix fn)).

(** *** Clients *)

(** One call of a client on the store [make], possibly through nested
    [withPrefix] wrappers (outermost prefix last), or one thing the host
    does. *)
Inductive Op : Type :=
| OpSet (key : string) (value : value) (opts : option SetOptions)
| OpGet (key : string)
| OpRemove (key : string)
| OpClear
| OpHas (key : string)
| OpKeys
| OpSubscribe (fn : Fn)
| OpUnsubscribe (fn : Fn).

Inductive Call : Type :=
| Invoke (prefixes : list string) (op : Op)
| HostEvent (e : StorageEvent)
| Elapse (ms : Z).

Definition target (prefixes : list string) : Store B :=
  fold_left withPrefix prefixes make.

Definition discard {A} (m : M B A) : M B unit := m ;; ret tt.

(** A subscription made through wrappers is dropped by the handle it
    returned: [OpUnsubscribe fn] calls the handle of the function [fn] that
    reached the emitter. *)
Definition invoke (s : Store B) (op : Op) : M B unit :=
  match op with
  | OpSet k v o => set s k v o
  | OpGet k => discard (get s k)
  | OpRemove k => remove s k
  | OpClear => clear s
  | OpHas k => discard (has s k)
  | OpKeys => discard (keys s)
  | OpSubscribe fn => discard (subscribe s fn)
  | OpUnsubscribe fn =>
      fun w => (Ret tt, with_fns (Set_delete fn (fns w)) w)
  end.

Definition step (c : Call) (w : World B) : World B :=
  match c with
  | Invoke ps op => snd (invoke (target ps) op w)
  | HostEvent e => snd (storage_listener e w)
  | Elapse ms => with_clock (clock w + Z.max 0 ms) w
  end.

(** A client that goes on after a call that threw. *)
Definition run (cs : list Call) (w : World B) : World B :=
  fold_left (fun w c => step c w) cs w.

End Make.

(** What callback [id] has been called with, oldest first. *)
Definition received {B} (id : nat) (w : World B) : list Change :=
  map snd (filter (fun d => Nat.eqb (fst d) id) (delivered w)).

(** The text [set] stores for the value [v] with the expiry [e]. *)
Definition envelope_text (v : value) (e : option Z) : string :=
  match JSON.stringify (Stored v e) with
  | Some s => s
  | None => EmptyString
  end.

(** A store on a fresh [memoryStorage()], as [local] and [session] are
    outside a browser. *)
Definition fresh (t : Z) : World JSMap.t :=
  mkWorld JSMap.empty [] t [] [] 0.

(** ** What the proofs ask of a Storage

    The key-value behaviour of the Web Storage interface, as far as the
    properties below need it. *)
Class StorageLaws (B : Type) `{Storage.Storage B} : Prop := {
  getItem_setItem :
    forall k v b b',
      Storage.setItem k v b = Some b' -> Storage.getItem k b' = Some v;
  getItem_removeItem :
    forall k b b',
      Storage.removeItem k b = Some b' -> Storage.getItem k b' = None;
  getItem_removeItem_other :
    forall k k' b b',
      Storage.removeItem k b = Some b' -> k' <> k ->
      Storage.getItem k' b' = Storage.getItem k' b;
  length_removeItem :
    forall k b b',
      Storage.removeItem k b = Some b' ->
      Storage.length b' <= Storage.length b
}.

(** A store with an expired key ["a"] written before a live key ["b"]:
    [set("a", 1, {ttl: 5}); set("b", 2)], ten milliseconds later. *)
Definition expired_then_live : World JSMap.t :=
  run [Invoke [] (OpSet "a" (Num 1) (Some (mkSetOptions (Some 5%Z))));
       Invoke [] (OpSet "b" (Num 2) None);
       Elapse 10]
      (fresh 0).

(** No registered function reaches the callback [id]. *)
Definition silent {B} (id : nat) (w : World B) : Prop :=
  forallb (fun fn => negb (reaches id fn)) (fns w) = true.

(** The call subscribes a function that reaches the callback [id]. *)
Definition subscribes (id : nat) (c : Call) : bool :=
  match c with
  | Invoke _ (OpSubscribe fn) => reaches id fn
  | _ => false
  end.

(** An operation that neither registers a function reaching [id] nor calls
    one, in a world where none is registered. *)
Definition Quiet {B A} (id : nat) (m : M B A) : Prop :=
  forall w,
    silent id w ->
    silent id (snd (m w)) /\ received id (snd (m w)) = received id w.

(** Every member of a store is quiet for [id]; subscribing is, for a
    function that does not reach [id]. *)
Record QuietStore {B} (id : nat) (s : Store B) : Prop := {
  quiet_set : forall k v o, Quiet id (set s k v o);
  quiet_get : forall k, Quiet id (get s k);
  quiet_remove : forall k, Quiet id (remove s k);
  quiet_clear : Quiet id (clear s);
  quiet_has : forall k, Quiet id (has s k);
  quiet_keys : Quiet id (keys s);
  quiet_subscribe :
    forall fn, reaches id fn = false -> Quiet id (subscribe s fn)
}.

(** What [get(k)] would return in the world [w]. *)
Definition reads {B} `{Storage.Storage B} (k : string) (w : World B) : value :=
  match fst (api_get k w) with
  | Ret v => v
  | _ => Undefined
  end.

(** The [Clear] events published so far. *)
Definition cleared {B} (w : World B) : list Change :=
  filter (fun c => match c with ChClear => true | _ => false end)
    (published w).

(** An operation that leaves the clock alone, publishes no [Clear], and
    after which [get(k)] returns what it returned before. *)
Definition Framed {B A} `{Storage.Storage B} (k : string) (m : M B A) : Prop :=
  forall w,
    clock (snd (m w)) = clock w /\
    cleared (snd (m w)) = cleared w /\
    reads k (snd (m w)) = reads k w.

(** ** Further vocabulary *)

(** What else the Web Storage interface promises: writing one key leaves
    the others, and a cleared area is empty. *)
Class StorageFrameLaws (B : Type) `{Storage.Storage B} : Prop := {
  getItem_setItem_other :
    forall k k' v b b',
      Storage.setItem k v b = Some b' -> k' <> k ->
      Storage.getItem k' b' = Storage.getItem k' b;
  length_clear :
    forall b b', Storage.clear b = Some b' -> Storage.length b' = 0;
  getItem_clear :
    forall k b b', Storage.clear b = Some b' -> Storage.getItem k b' = None
}.

(** An operation that keeps the property [I] of worlds. *)
Definition Preserves {B A} (I : World B -> Prop) (m : M B A) : Prop :=
  forall w, I w -> I (snd (m w)).

(** A property of worlds that the backend, the clock and published events
    cannot break, nor can registering or dropping a function that [ok]
    accepts. *)
Record Invariant {B} (I : World B -> Prop) (ok : Fn -> bool) : Prop := {
  inv_backing : forall b w, I w -> I (with_backing b w);
  inv_clock : forall t w, I w -> I (with_clock t w);
  inv_emitted : forall c b w, I w -> I (emitted c b w);
  inv_closure :
    forall w,
      I w ->
      I (mkWorld (backing w) (fns w) (clock w) (published w) (delivered w)
           (S (closures w)));
  inv_add :
    forall fn w, ok fn = true -> I w -> I (with_fns (Set_add fn (fns w)) w);
  inv_delete :
    forall fn w,
      ok fn = true -> I w -> I (with_fns (Set_delete fn (fns w)) w)
}.

(** Every member of a store keeps [I]; subscribing does, for a function
    that [ok] accepts. *)
Record KeepsStore {B} (I : World B -> Prop) (ok : Fn -> bool) (s : Store B) :
  Prop := {
  keeps_set : forall k v o, Preserves I (set s k v o);
  keeps_get : forall k, Preserves I (get s k);
  keeps_remove : forall k, Preserves I (remove s k);
  keeps_clear : Preserves I (clear s);
  keeps_has : forall k, Preserves I (has s k);
  keeps_keys : Preserves I (keys s);
  keeps_subscribe : forall fn, ok fn = true -> Preserves I (subscribe s fn)
}.

(** The call registers or drops only functions that [ok] accepts. *)
Definition allowed (ok : Fn -> bool) (c : Call) : bool :=
  match c with
  | Invoke _ (OpSubscribe fn) | Invoke _ (OpUnsubscribe fn) => ok fn
  | _ => true
  end.

(** What the arrow function of [withPrefix(store, p).subscribe] passes on
    of an event: [Clear] as it is, an event of a key under the prefix
    with the prefix and the delimiter stripped, nothing else. *)
Definition scoped_view (p : string) (c : Change) : list Change :=
  match c with
  | ChClear => [ChClear]
  | ChSet k =>
      if startsWith k (p ++ ":")
      then [ChSet (slice (String.length p + 1) k)]
      else []
  | ChRemove k =>
      if startsWith k (p ++ ":")
      then [ChRemove (slice (String.length p + 1) k)]
      else []
  end.

(** What the callbacks behind [fn] are called with for the events [evs]. *)
Definition heard (fn : Fn) (evs : list Change) : list Change :=
  flat_map (fun c => map snd (call fn c)) evs.

(** [fn0] is the one registered function that reaches the callback [id],
    and it reaches no other. *)
Definition sole {B} (id : nat) (fn0 : Fn) (w : World B) : Prop :=
  forall c,
    filter (fun d => Nat.eqb (fst d) id)
      (flat_map (fun fn => call fn c) (fns w)) =
    call fn0 c.

(** Since the world that had published [P0] and called [id] with [R0],
    the callback [id] has been called through [fn0] with each event
    published, in order. *)
Definition tracking {B} (id : nat) (fn0 : Fn) (P0 R0 : list Change)
  (w : World B) : Prop :=
  sole id fn0 w /\
  exists evs,
    published w = (P0 ++ evs)%list /\
    received id w = (R0 ++ heard fn0 evs)%list.

(** The keys at the indices below [length], in index order: what the loop
    of [keys] goes through when nothing is purged on the way. *)
Definition enumerate {B} `{Storage.Storage B} (b : B) : list string :=
  flat_map
    (fun i => match Storage.key i b with Some k => [k] | None => [] end)
    (seq 0 (Storage.length b)).

(** A store that holds ["k"] with the value 1. *)
Definition one_key : World JSMap.t :=
  snd (set make "k" (Num 1) None (fresh 0)).

(* ================================================================== *)
(** * Properties *)
(* ================================================================== *)

Module JSONFacts.
Import JSON.

Lemma append_assoc (a b c : string) : (a ++ b) ++ c = a ++ b ++ c.
Proof. induction a as [|x a IH]; simpl; [reflexivity | now rewrite IH]. Qed.

Lemma append_nil_r (a : string) : a ++ "" = a.
Proof. induction a as [|x a IH]; simpl; [reflexivity | now rewrite IH]. Qed.

Lemma length_append (a b : string) :
  String.length (a ++ b) = String.length a + String.length b.
Proof. induction a as [|x a IH]; simpl; [reflexivity | now rewrite IH]. Qed.

Ltac each_char c :=
  destruct c as [[] [] [] [] [] [] [] []].

Lemma starts_value_not_ws c : starts_value c = true -> is_ws c = false.
Proof. each_char c; vm_compute; congruence. Qed.

Lemma starts_value_not_closing c :
  starts_value c = true ->
  Ascii.eqb c "]" = false /\ Ascii.eqb c "}" = false.
Proof. each_char c; vm_compute; intuition congruence. Qed.

Lemma uint_digits d : all_digits (NilEmpty.string_of_uint d) = true.
Proof. induction d; simpl; auto. Qed.

Lemma span_digits_app d rest :
  all_digits d = true -> no_digit_head rest ->
  span_digits (d ++ rest) = (d, rest).
Proof.
  induction d as [|c d IH]; simpl; intros Hd Hr.
  - destruct rest as [|c r]; simpl in *; [reflexivity | now rewrite Hr].
  - apply andb_true_iff in Hd as [Hc Hd]. now rewrite Hc, IH.
Qed.

Lemma digit_not_minus c : is_digit c = true -> Ascii.eqb c "-" = false.
Proof. each_char c; vm_compute; congruence. Qed.

(** *** Digits and the numbers they write *)

Lemma digits_acc_app a s t :
  digits_acc a (s ++ t) = digits_acc (digits_acc a s) t.
Proof. revert a. induction s as [|c s IH]; simpl; intros a; [reflexivity | apply IH]. Qed.

Lemma digits_acc_zeros a z :
  digits_acc a (zeros z) = (a * 10 ^ Z.of_nat z)%Z.
Proof.
  revert a. induction z as [|z IH]; intros a.
  - simpl. lia.
  - cbn [zeros digits_acc]. rewrite IH.
    change (digit_value "0") with 0%Z.
    rewrite Nat2Z.inj_succ, Z.pow_succ_r by lia. ring.
Qed.

Lemma digits_acc_uint d acc :
  digits_acc (Zpos acc) (NilEmpty.string_of_uint d) =
  Zpos (Pos.of_uint_acc d acc).
Proof.
  revert acc. induction d; intros acc; cbn [NilEmpty.string_of_uint digits_acc Pos.of_uint_acc];
    [reflexivity | | | | | | | | | | ];
    rewrite <- IHd; f_equal.
  all: match goal with |- context [digit_value ?c] => let v := eval vm_compute in (digit_value c) in change (digit_value c) with v end.
  all: lia.
Qed.

Lemma digits_acc_of_uint d :
  digits_acc 0 (NilEmpty.string_of_uint d) = Z.of_N (Pos.of_uint d).
Proof.
  induction d; cbn [NilEmpty.string_of_uint digits_acc Pos.of_uint];
    [reflexivity | exact IHd | | | | | | | | | ];
    match goal with |- context [digit_value ?c] => let v := eval vm_compute in (digit_value c) in change (digit_value c) with v end;
    cbn [Z.mul Z.add]; apply digits_acc_uint.
Qed.

Lemma digits_of_value p : digits_acc 0 (digits_of p) = Zpos p.
Proof.
  unfold digits_of. rewrite digits_acc_of_uint, Unsigned.of_to. reflexivity.
Qed.

Lemma digits_of_digits p : all_digits (digits_of p) = true.
Proof. apply uint_digits. Qed.

(** The digits of a positive number start with a digit that is not zero. *)
Lemma digits_of_head p :
  exists c r, digits_of p = String c r /\ is_digit c = true /\
              Ascii.eqb c "0" = false.
Proof.
  unfold digits_of.
  pose proof (Unsigned.to_of (Pos.to_uint p)) as E.
  rewrite Unsigned.of_to in E. simpl in E.
  pose proof (Unsigned.to_uint_nonzero p) as Hz.
  assert (Decimal.nzhead (Pos.to_uint p) <> Decimal.Nil) as Hn.
  { intros Hn. apply DecimalFacts.unorm_0 in Hn. congruence. }
  rewrite (DecimalFacts.unorm_nzhead _ Hn) in E.
  pose proof (DecimalFacts.nzhead_nonzero (Pos.to_uint p)) as Hh.
  rewrite <- E in Hh, Hn.
  destruct (Pos.to_uint p); simpl;
    try (eexists _, _; split; [reflexivity | split; reflexivity]).
  - contradiction.
  - exfalso. now apply (Hh u).
Qed.

Lemma all_digits_app a b :
  all_digits (a ++ b) = all_digits a && all_digits b.
Proof.
  induction a as [|c a IH]; simpl; [reflexivity|].
  now rewrite IH, andb_assoc.
Qed.

Lemma zeros_digits z : all_digits (zeros z) = true.
Proof. induction z; simpl; auto. Qed.

Lemma length_zeros z : String.length (zeros z) = z.
Proof. induction z; simpl; auto. Qed.

Lemma strip_zeros_spec s : exists z, s = strip_zeros s ++ zeros z.
Proof.
  induction s as [|c r [z IH]]; [now exists 0|].
  cbn [strip_zeros]. destruct (strip_zeros r) as [|c' r'].
  - simpl in IH. destruct (Ascii.eqb_spec c "0") as [->|_].
    + exists (S z). simpl. now rewrite <- IH.
    + exists z. simpl. now rewrite <- IH.
  - exists z. simpl. simpl in IH. now rewrite <- IH.
Qed.

Lemma strip_zeros_head c r :
  Ascii.eqb c "0" = false ->
  exists r', strip_zeros (String c r) = String c r'.
Proof.
  intros Hc. cbn [strip_zeros]. rewrite Hc.
  destruct (strip_zeros r); eauto.
Qed.

Lemma take_drop n s : take n s ++ drop n s = s.
Proof.
  revert s. induction n as [|n IH]; intros [|c r]; simpl; try reflexivity.
  now rewrite IH.
Qed.

Lemma length_take n s :
  n <= String.length s -> String.length (take n s) = n.
Proof.
  revert s. induction n as [|n IH]; intros [|c r]; simpl; intros Hn;
    try reflexivity; try lia.
  rewrite IH; lia.
Qed.

Lemma ends_number_no_digit rest : ends_number rest -> no_digit_head rest.
Proof.
  destruct rest as [|c r]; simpl; [auto|]. unfold number_char.
  destruct (is_digit c); simpl; congruence.
Qed.

Lemma read_fraction_none rest :
  ends_number rest -> read_fraction rest = Some ("", rest).
Proof.
  destruct rest as [|c r]; simpl; [reflexivity|]. unfold number_char.
  destruct (Ascii.eqb c "."); [|reflexivity].
  rewrite orb_true_r. simpl. discriminate.
Qed.

Lemma read_exponent_none rest :
  ends_number rest -> read_exponent rest = Some (0%Z, rest).
Proof.
  destruct rest as [|c r]; simpl; [reflexivity|]. unfold number_char.
  destruct (Ascii.eqb c "e"), (Ascii.eqb c "E"); simpl;
    rewrite ?orb_true_r; try discriminate. reflexivity.
Qed.

Lemma read_fraction_some c f rest :
  all_digits (String c f) = true -> no_digit_head rest ->
  read_fraction (String "." (String c f ++ rest)) = Some (String c f, rest).
Proof.
  intros Hf Hr. unfold read_fraction.
  change (Ascii.eqb "." ".") with true. cbv beta match.
  rewrite (span_digits_app _ _ Hf Hr). reflexivity.
Qed.

Lemma magnitude_text_shape e :
  exists c r, magnitude_text e = String c r /\
              all_digits (String c r) = true.
Proof.
  destruct e as [|p|p]; cbn [magnitude_text].
  - exists "0"%char, "". auto.
  - destruct (digits_of_head p) as (c & r & E & _). exists c, r.
    split; [assumption|]. rewrite <- E. apply digits_of_digits.
  - destruct (digits_of_head p) as (c & r & E & _). exists c, r.
    split; [assumption|]. rewrite <- E. apply digits_of_digits.
Qed.

Lemma read_exponent_some e rest :
  no_digit_head rest ->
  read_exponent
    (String "e"
       (String (if (0 <=? e)%Z then "+" else "-")%char
          (magnitude_text e ++ rest))) = Some (e, rest).
Proof.
  intros Hr. destruct (magnitude_text_shape e) as (c & r & E & Hd).
  assert (digits_acc 0 (magnitude_text e) = Z.abs e) as Hv.
  { destruct e as [|p|p]; simpl; [reflexivity| |]; apply digits_of_value. }
  unfold read_exponent.
  change (Ascii.eqb "e" "e" || Ascii.eqb "e" "E") with true. cbv beta match.
  rewrite E in *.
  destruct (0 <=? e)%Z eqn:He.
  - change (Ascii.eqb "+" "-") with false.
    change (Ascii.eqb "+" "+") with true. cbv beta match.
    rewrite (span_digits_app _ _ Hd Hr). rewrite Hv.
    f_equal. f_equal. lia.
  - change (Ascii.eqb "-" "-") with true. cbv beta match.
    rewrite (span_digits_app _ _ Hd Hr). rewrite Hv.
    f_equal. f_equal. lia.
Qed.

Lemma make_number_nonneg m e :
  (0 <= e)%Z -> make_number m e = Num (m * 10 ^ e).
Proof. intros He. unfold make_number. apply Z.leb_le in He. now rewrite He. Qed.

Lemma take_head n c r : take (S n) (String c r) = String c (take n r).
Proof. reflexivity. Qed.

Lemma drop_nonempty n s :
  n < String.length s -> exists c r, drop n s = String c r.
Proof.
  revert s. induction n as [|n IH]; intros [|c r]; simpl; intros Hn;
    try lia; eauto. apply IH. lia.
Qed.

Lemma parse_unsigned_format negative c r n rest :
  all_digits (String c r) = true -> Ascii.eqb c "0" = false ->
  ends_number rest ->
  parse_unsigned negative (format_number (String c r) n ++ rest) =
  Some (make_number
          (if negative then - digits_acc 0 (String c r)
           else digits_acc 0 (String c r))
          (n - Z.of_nat (String.length (String c r))), rest).
Proof.
  intros Hs Hc Hr.
  pose proof (ends_number_no_digit _ Hr) as Hr'.
  unfold format_number.
  destruct ((Z.of_nat (String.length (String c r)) <=? n) && (n <=? 21))%Z
    eqn:C1.
  { apply andb_true_iff in C1 as [C1 _]. apply Z.leb_le in C1.
    set (z := Z.to_nat (n - Z.of_nat (String.length (String c r)))).
    unfold parse_unsigned.
    rewrite (span_digits_app (String c r ++ zeros z) rest)
      by (rewrite ?all_digits_app, ?Hs, ?zeros_digits; auto).
    cbn [append]. rewrite Hc. cbn [andb].
    rewrite (read_fraction_none _ Hr), (read_exponent_none _ Hr).
    cbv zeta. rewrite append_nil_r.
    change (String c (r ++ zeros z)) with (String c r ++ zeros z).
    rewrite digits_acc_app, digits_acc_zeros.
    rewrite !make_number_nonneg by first [lia | simpl; lia].
    apply f_equal, (f_equal2 pair); [|reflexivity]. apply f_equal. subst z. rewrite Z2Nat.id by lia.
    change (Z.of_nat (String.length "")) with 0%Z.
    rewrite Z.sub_0_r, Z.pow_0_r.
    destruct negative; ring. }
  destruct ((0 <? n) && (n <=? 21))%Z eqn:C2.
  { apply andb_true_iff in C2 as [C2 C2']. apply Z.ltb_lt in C2.
    apply Z.leb_le in C2'.
    assert (n < Z.of_nat (String.length (String c r)))%Z as Hn.
    { apply andb_false_iff in C1 as [C1|C1]; [apply Z.leb_gt in C1; lia|].
      apply Z.leb_gt in C1. lia. }
    set (s := String c r) in *.
    assert (exists k, Z.to_nat n = S k) as [k Ek].
    { exists (pred (Z.to_nat n)). lia. }
    assert (S k < String.length s) as Hk by lia.
    destruct (drop_nonempty _ _ Hk) as (c' & f & Ef).
    pose proof (take_drop (S k) s) as Etd.
    assert (all_digits (take (S k) s) = true /\
            all_digits (String c' f) = true) as [Ht Hf].
    { rewrite <- Ef. apply andb_true_iff.
      rewrite <- all_digits_app, Etd. exact Hs. }
    rewrite Ek. rewrite append_assoc.
    unfold parse_unsigned.
    rewrite (span_digits_app (take (S k) s)) by (simpl; auto).
    subst s. rewrite take_head. rewrite Hc. cbn [andb].
    change (("." ++ drop (S k) (String c r)) ++ rest)
      with (String "." (drop (S k) (String c r) ++ rest)).
    cbn [append].
    rewrite Ef, (read_fraction_some _ _ _ Hf Hr'), (read_exponent_none _ Hr).
    cbv beta match zeta.
    change (String c (take k r ++ String c' f))
      with (take (S k) (String c r) ++ String c' f).
    rewrite <- Ef, Etd.
    apply f_equal, (f_equal2 pair); [|reflexivity]. apply f_equal.
    assert (String.length (String c r) =
            S k + String.length (drop (S k) (String c r))) as El.
    { rewrite <- Etd at 1. rewrite length_append, length_take; lia. }
    lia. }
  destruct ((-6 <? n) && (n <=? 0))%Z eqn:C3.
  { apply andb_true_iff in C3 as [C3 C3']. apply Z.ltb_lt in C3.
    apply Z.leb_le in C3'.
    set (z := Z.to_nat (- n)).
    assert (all_digits (String "0" (zeros z ++ String c r)) = true) as Hf.
    { cbn [all_digits]. rewrite all_digits_app, zeros_digits, Hs.
      reflexivity. }
    unfold parse_unsigned.
    change (String "0" (String "." (zeros z ++ String c r)) ++ rest)
      with (String "0" (String "." ((zeros z ++ String c r) ++ rest))).
    assert (span_digits
              (String "0" (String "." ((zeros z ++ String c r) ++ rest))) =
            ("0", String "." ((zeros z ++ String c r) ++ rest))) as ->
      by reflexivity.
    change (Ascii.eqb "0" "0" && negb (String.eqb "" "")) with false.
    cbv beta match.
    assert (exists c' f, zeros z ++ String c r = String c' f) as (c' & f & Ef).
    { destruct z; simpl; eauto. }
    assert (all_digits (String c' f) = true) as Hf'.
    { rewrite <- Ef. rewrite all_digits_app, zeros_digits, Hs.
      reflexivity. }
    rewrite Ef, (read_fraction_some _ _ _ Hf' Hr'), (read_exponent_none _ Hr).
    cbv beta match zeta. rewrite <- Ef.
    change ("0" ++ zeros z ++ String c r)
      with (zeros 1 ++ zeros z ++ String c r).
    rewrite !digits_acc_app, !digits_acc_zeros.
    change (0 * 10 ^ Z.of_nat 1)%Z with 0%Z. rewrite Z.mul_0_l.
    apply f_equal, (f_equal2 pair); [|reflexivity]. apply f_equal.
    rewrite length_append, length_zeros. subst z. lia. }
  (* the exponent form *)
  unfold parse_unsigned.
  set (e := (n - 1)%Z).
  set (tail := String "e"
                 (String (if (0 <=? e)%Z then "+" else "-")%char
                    (magnitude_text e))).
  assert (tail ++ rest =
          String "e"
            (String (if (0 <=? e)%Z then "+" else "-")%char
               (magnitude_text e ++ rest))) as Etail by reflexivity.
  destruct r as [|c' f].
  - change (String c ("" ++ tail) ++ rest) with (String c (tail ++ rest)).
    assert (span_digits (String c (tail ++ rest)) = (String c "", tail ++ rest))
      as ->.
    { simpl in Hs. rewrite andb_true_r in Hs. cbn [span_digits].
      rewrite Hs. reflexivity. }
    rewrite andb_false_r. cbv beta match.
    assert (read_fraction (tail ++ rest) = Some ("", tail ++ rest)) as ->
      by reflexivity.
    rewrite Etail, (read_exponent_some e rest Hr').
    cbv beta match zeta.
    apply f_equal, (f_equal2 pair); [|reflexivity]. apply f_equal.
    subst e. simpl. lia.
  - change (String c (String "." (String c' f) ++ tail) ++ rest)
      with (String c (String "." ((String c' f ++ tail) ++ rest))).
    rewrite append_assoc.
    assert (span_digits (String c (String "." (String c' f ++ tail ++ rest))) =
            (String c "", String "." (String c' f ++ tail ++ rest))) as ->.
    { cbn [all_digits] in Hs. apply andb_true_iff in Hs as [Hd _].
      cbn [span_digits]. rewrite Hd. reflexivity. }
    rewrite andb_false_r. cbv beta match.
    assert (all_digits (String c' f) = true) as Hf.
    { cbn [all_digits] in Hs. now apply andb_true_iff in Hs as [_ Hd]. }
    rewrite (read_fraction_some _ _ _ Hf) by reflexivity.
    rewrite Etail, (read_exponent_some e rest Hr').
    cbv beta match zeta.
    apply f_equal, (f_equal2 pair); [|reflexivity]. apply f_equal.
    subst e. cbn [String.length]. lia.
Qed.

Lemma format_number_head c r n :
  is_digit c = true ->
  exists c0 t, format_number (String c r) n = String c0 t /\
               is_digit c0 = true.
Proof.
  intros Hc. unfold format_number.
  destruct ((Z.of_nat (String.length (String c r)) <=? n) && (n <=? 21))%Z;
    [cbn [append]; eexists _, _; split; [reflexivity | assumption]|].
  destruct ((0 <? n) && (n <=? 21))%Z eqn:C2.
  { apply andb_true_iff in C2 as [C2 _]. apply Z.ltb_lt in C2.
    assert (exists k, Z.to_nat n = S k) as [k ->]
      by (exists (pred (Z.to_nat n)); lia).
    rewrite take_head. cbn [append].
    eexists _, _; split; [reflexivity | assumption]. }
  destruct ((-6 <? n) && (n <=? 0))%Z;
    eexists _, _; (split; [reflexivity | first [assumption | reflexivity]]).
Qed.

(** The digits of [p], split into its significant digits and the zeros
    after them. *)
Lemma digits_of_split p :
  exists c r r' z,
    digits_of p = String c r /\
    strip_zeros (digits_of p) = String c r' /\
    String c r = String c r' ++ zeros z /\
    is_digit c = true /\ Ascii.eqb c "0" = false /\
    all_digits (String c r') = true /\
    (digits_acc 0 (String c r') * 10 ^ Z.of_nat z = Zpos p)%Z /\
    String.length (String c r) = String.length (String c r') + z.
Proof.
  destruct (digits_of_head p) as (c & r & E & Hd & Hc).
  destruct (strip_zeros_spec (digits_of p)) as [z Ez].
  rewrite E in Ez. destruct (strip_zeros_head c r Hc) as [r' Er'].
  rewrite Er' in Ez.
  pose proof (digits_of_digits p) as Hall. rewrite E, Ez in Hall.
  rewrite all_digits_app in Hall. apply andb_true_iff in Hall as [Hall _].
  exists c, r, r', z. repeat split; try assumption.
  - now rewrite E.
  - rewrite <- digits_acc_zeros, <- digits_acc_app, <- Ez, <- E.
    apply digits_of_value.
  - rewrite Ez at 1. now rewrite length_append, length_zeros.
Qed.

Lemma parse_point_text m shift rest :
  m <> 0%Z -> ends_number rest ->
  exists s z,
    (m = (if (m <? 0)%Z then - digits_acc 0 s else digits_acc 0 s)
         * 10 ^ Z.of_nat z)%Z /\
    parse_number (point_text m shift ++ rest) =
    Some (make_number
            (if (m <? 0)%Z then - digits_acc 0 s else digits_acc 0 s)
            (Z.of_nat z - shift), rest).
Proof.
  intros Hm Hr. destruct m as [|p|p]; [contradiction| |];
    destruct (digits_of_split p)
      as (c & r & r' & z & E & Es & Ez & Hd & Hc & Hall & Hv & Hl);
    exists (String c r'), z;
    (split; [change (Z.pos p <? 0)%Z with false;
             change (Z.neg p <? 0)%Z with true;
             cbv beta match; lia|]);
    unfold point_text; rewrite Es, E.
  - destruct (format_number_head c r'
                (Z.of_nat (String.length (String c r)) - shift) Hd)
      as (c0 & t & Ef & Hc0).
    assert (parse_number
              (format_number (String c r')
                 (Z.of_nat (String.length (String c r)) - shift) ++ rest) =
            parse_unsigned false
              (format_number (String c r')
                 (Z.of_nat (String.length (String c r)) - shift) ++ rest))
      as ->.
    { rewrite Ef. cbn [append parse_number].
      now rewrite (digit_not_minus c0 Hc0). }
    rewrite (parse_unsigned_format false c r' _ rest Hall Hc Hr).
    change (Z.pos p <? 0)%Z with false. cbv beta match.
    apply f_equal, (f_equal2 pair); [|reflexivity]. apply f_equal. lia.
  - change (String "-" (format_number (String c r')
                (Z.of_nat (String.length (String c r)) - shift)) ++ rest)
      with (String "-" (format_number (String c r')
                (Z.of_nat (String.length (String c r)) - shift) ++ rest)).
    cbn [parse_number]. change (Ascii.eqb "-" "-") with true. cbv beta match.
    rewrite (parse_unsigned_format true c r' _ rest Hall Hc Hr).
    change (Z.neg p <? 0)%Z with true. cbv beta match.
    apply f_equal, (f_equal2 pair); [|reflexivity]. apply f_equal. lia.
Qed.

Lemma parse_number_text n rest :
  ends_number rest ->
  parse_number (number_text n ++ rest) = Some (Num n, rest).
Proof.
  intros Hr. destruct (Z.eq_dec n 0) as [->|Hn].
  - pose proof (ends_number_no_digit _ Hr) as Hr'.
    change (number_text 0 ++ rest) with (String "0" rest).
    unfold parse_number, parse_unsigned.
    change (Ascii.eqb "0" "-") with false. cbv beta match.
    change (String "0" rest) with ("0" ++ rest).
    rewrite (span_digits_app "0" rest eq_refl Hr').
    change (Ascii.eqb "0" "0" && negb (String.eqb "" "")) with false.
    cbv beta match.
    rewrite (read_fraction_none _ Hr), (read_exponent_none _ Hr).
    reflexivity.
  - destruct (parse_point_text n 0 rest Hn Hr) as (s & z & Hv & E).
    unfold number_text. rewrite E.
    rewrite make_number_nonneg by lia. rewrite Z.sub_0_r.
    now rewrite <- Hv.
Qed.

Lemma reduce_lowest m k :
  (m mod 10 <> 0)%Z -> reduce m (Pos.to_nat k) = Dec m k.
Proof.
  intros Hm. destruct (Pos2Nat.is_succ k) as [n En]. rewrite En.
  cbn [reduce]. apply Z.eqb_neq in Hm. rewrite Hm.
  f_equal. apply Pos2Nat.inj. rewrite SuccNat2Pos.id_succ. now rewrite En.
Qed.

Lemma parse_decimal_text m k rest :
  (m mod 10 <> 0)%Z -> ends_number rest ->
  parse_number (decimal_text m k ++ rest) = Some (Dec m k, rest).
Proof.
  intros Hm Hr.
  assert (m <> 0%Z) as Hn by (intros ->; now apply Hm).
  destruct (parse_point_text m (Zpos k) rest Hn Hr) as (s & z & Hv & E).
  unfold decimal_text. rewrite E. clear E.
  assert (z = 0) as ->.
  { destruct z as [|z]; [reflexivity|]. exfalso. apply Hm.
    rewrite Nat2Z.inj_succ, Z.pow_succ_r in Hv by lia.
    rewrite Hv.
    replace ((if (m <? 0)%Z then - digits_acc 0 s else digits_acc 0 s) *
             (10 * 10 ^ Z.of_nat z))%Z
      with ((if (m <? 0)%Z then - digits_acc 0 s else digits_acc 0 s) *
            10 ^ Z.of_nat z * 10)%Z by ring.
    apply Z_mod_mult. }
  change (10 ^ Z.of_nat 0)%Z with 1%Z in Hv. rewrite Z.mul_1_r in Hv.
  rewrite <- Hv.
  unfold make_number. change (0 <=? Z.of_nat 0 - Z.pos k)%Z with false.
  cbv beta match.
  change (Z.to_nat (- (Z.of_nat 0 - Z.pos k))) with (Pos.to_nat k).
  now rewrite reduce_lowest.
Qed.

Lemma point_text_head m shift :
  exists c r, point_text m shift = String c r /\
    (is_digit c = true \/ c = "-"%char).
Proof.
  destruct m as [|p|p]; unfold point_text.
  - exists "0"%char, "". auto.
  - destruct (digits_of_split p)
      as (c & r & r' & z & E & Es & _ & Hd & _).
    rewrite Es.
    destruct (format_number_head c r'
                (Z.of_nat (String.length (digits_of p)) - shift) Hd)
      as (c0 & t & -> & Hc0).
    eauto.
  - eauto.
Qed.

Lemma number_head_dispatch c :
  is_digit c = true \/ c = "-"%char ->
  is_ws c = false /\ Ascii.eqb c "n" = false /\ Ascii.eqb c "t" = false /\
  Ascii.eqb c "f" = false /\ Ascii.eqb c dquote = false /\
  Ascii.eqb c "[" = false /\ Ascii.eqb c "{" = false /\
  starts_value c = true.
Proof.
  intros [Hc | ->]; [|vm_compute; intuition congruence].
  revert Hc. each_char c; vm_compute; intuition congruence.
Qed.

(** One escaped character reads back as itself. *)
Lemma parse_chars_escape_char c tail :
  parse_chars (escape_char c ++ tail) = push c (parse_chars tail).
Proof. each_char c; reflexivity. Qed.

Lemma parse_chars_escape s rest :
  parse_chars (escape s ++ String dquote rest) = Some (s, rest).
Proof.
  induction s as [|c s IH]; simpl.
  - reflexivity.
  - rewrite append_assoc, parse_chars_escape_char, IH. reflexivity.
Qed.

Lemma quote_append s rest :
  quote s ++ rest = String dquote (escape s ++ String dquote rest).
Proof. unfold quote. simpl. now rewrite append_assoc. Qed.

(** Induction on values through their items and members. *)
Lemma value_rect' (P : value -> Prop)
  (HU : P Undefined) (HN : P Null) (HB : forall b, P (Boolean b))
  (HZ : forall n, P (Num n)) (HS : forall s, P (Str s))
  (HA : forall items, Forall P items -> P (Arr items))
  (HO : forall members, Forall (fun m => P (snd m)) members -> P (Obj members))
  (HG : forall n, P (BigInt n)) (HD : forall m k, P (Dec m k)) :
  forall v, P v.
Proof.
  fix IH 1. intros [ | | b | n | s | items | members | n | m k].
  - exact HU.
  - exact HN.
  - apply HB.
  - apply HZ.
  - apply HS.
  - apply HA. induction items as [|x l IHl]; constructor.
    + apply IH.
    + exact IHl.
  - apply HO. induction members as [|[k x] l IHl]; constructor.
    + apply IH.
    + exact IHl.
  - apply HG.
  - apply HD.
Qed.

Lemma expect_here c rest :
  is_ws c = false -> expect c (String c rest) = Some rest.
Proof. intros Hc. unfold expect. simpl. now rewrite Hc, Ascii.eqb_refl. Qed.

Lemma expect_other c a rest :
  is_ws a = false -> Ascii.eqb a c = false ->
  expect c (String a rest) = None.
Proof. intros Ha Hc. unfold expect. simpl. now rewrite Ha, Hc. Qed.

Lemma parse_elements_S fuel s :
  parse_elements (S fuel) s =
  match parse_value fuel s with
  | Some (v, r) =>
      match expect "," r with
      | Some r' =>
          match parse_elements fuel r' with
          | Some (items, r'') => Some (v :: items, r'')
          | None => None
          end
      | None =>
          match expect "]" r with
          | Some r' => Some ([v], r')
          | None => None
          end
      end
  | None => None
  end.
Proof. reflexivity. Qed.

Lemma round_trips_elements items :
  Forall round_trips items -> forallb json_value items = true ->
  items <> [] ->
  exists parts,
    array_parts (map stringify_value items) = Some parts /\
    items_size items <= String.length (join "," parts) + 1 /\
    (exists c r, join "," parts = String c r /\ starts_value c = true) /\
    forall fuel rest,
      items_size items <= fuel ->
      parse_elements fuel (join "," parts ++ String "]" rest) =
      Some (items, rest).
Proof.
  induction 1 as [|v l Hv Hl IH]; [easy|]. intros Hj _.
  simpl in Hj. apply andb_true_iff in Hj as [Hjv Hjl].
  destruct (Hv Hjv) as (s & Es & Hlen & (c & r & Ec & Hc) & Hparse).
  destruct l as [|v2 l].
  - exists [s]. simpl. rewrite Es. simpl. repeat split.
    + unfold items_size. simpl. lia.
    + eauto.
    + intros fuel rest Hf. unfold items_size in Hf. simpl in Hf.
      destruct fuel as [|fuel]; [lia|]. rewrite parse_elements_S.
      rewrite Hparse by (simpl; auto; lia).
      rewrite expect_other, expect_here by reflexivity. reflexivity.
  - destruct (IH Hjl ltac:(discriminate))
      as (parts & Ep & Hplen & _ & Hpparse).
    exists (s :: parts). split; [|split; [|split]].
    + change (map stringify_value (v :: v2 :: l))
        with (stringify_value v :: map stringify_value (v2 :: l)).
      cbn [array_parts]. rewrite Es, Ep. reflexivity.
    + assert (join "," (s :: parts) = s ++ "," ++ join "," parts) as ->.
      { destruct parts; [|reflexivity]. simpl in Ep.
        destruct (stringify_value v2); simpl in Ep; try discriminate;
          destruct (array_parts (map stringify_value l)); discriminate. }
      rewrite !length_append. unfold items_size in *. simpl in *. lia.
    + exists c, (r ++ match parts with [] => "" | _ => "," ++ join "," parts end).
      split; [|assumption].
      destruct parts; simpl; rewrite Ec; simpl; [now rewrite append_nil_r|reflexivity].
    + intros fuel rest Hf.
      assert (join "," (s :: parts) = s ++ "," ++ join "," parts) as ->.
      { destruct parts; [|reflexivity]. simpl in Ep.
        destruct (stringify_value v2); simpl in Ep; try discriminate;
          destruct (array_parts (map stringify_value l)); discriminate. }
      unfold items_size in Hf. simpl in Hf.
      destruct fuel as [|fuel]; [lia|]. rewrite parse_elements_S.
      rewrite !append_assoc. rewrite Hparse by (simpl; auto; lia).
      change ("," ++ join "," parts ++ String "]" rest)
        with (String "," (join "," parts ++ String "]" rest)).
      rewrite expect_here by reflexivity.
      rewrite Hpparse by (unfold items_size; simpl; lia). reflexivity.
Qed.


Lemma parse_members_S fuel s :
  parse_members (S fuel) s =
  match expect dquote s with
  | Some r =>
      match parse_chars r with
      | Some (k, r1) =>
          match expect ":" r1 with
          | Some r2 =>
              match parse_value fuel r2 with
              | Some (v, r3) =>
                  match expect "," r3 with
                  | Some r4 =>
                      match parse_members fuel r4 with
                      | Some (ms, r5) => Some ((k, v) :: ms, r5)
                      | None => None
                      end
                  | None =>
                      match expect "}" r3 with
                      | Some r4 => Some ([(k, v)], r4)
                      | None => None
                      end
                  end
              | None => None
              end
          | None => None
          end
      | None => None
      end
  | None => None
  end.
Proof. reflexivity. Qed.

Lemma member_text k s tail :
  (quote k ++ ":" ++ s) ++ tail =
  String dquote (escape k ++ String dquote (String ":" (s ++ tail))).
Proof. rewrite append_assoc, quote_append. reflexivity. Qed.

Lemma quote_length k : 2 <= String.length (quote k).
Proof. unfold quote. simpl. rewrite length_append. simpl. lia. Qed.

Lemma join_cons sep p q parts :
  join sep (p :: q :: parts) = p ++ sep ++ join sep (q :: parts).
Proof. reflexivity. Qed.

Lemma round_trips_members members :
  Forall (fun m => round_trips (snd m)) members ->
  forallb (fun m => json_value (snd m)) members = true ->
  members <> [] ->
  exists parts,
    object_parts (map (fun m => (fst m, stringify_value (snd m))) members) =
      Some parts /\
    members_size members <= String.length (join "," parts) + 1 /\
    (exists r, join "," parts = String dquote r) /\
    forall fuel rest,
      members_size members <= fuel ->
      parse_members fuel (join "," parts ++ String "}" rest) =
      Some (members, rest).
Proof.
  induction 1 as [|[k v] l Hv Hl IH]; [easy|]. intros Hj _.
  simpl in Hj, Hv. apply andb_true_iff in Hj as [Hjv Hjl].
  destruct (Hv Hjv) as (s & Es & Hlen & _ & Hparse).
  pose proof (quote_length k) as Hq.
  destruct l as [|m2 l].
  - exists [quote k ++ ":" ++ s]. split; [|split; [|split]].
    + simpl. rewrite Es. reflexivity.
    + unfold members_size. simpl. rewrite !length_append. simpl. lia.
    + eexists. unfold quote. simpl. reflexivity.
    + intros fuel rest Hf. unfold members_size in Hf. simpl in Hf.
      cbn [join].
      destruct fuel as [|fuel]; [lia|]. rewrite parse_members_S.
      rewrite member_text, expect_here by reflexivity.
      rewrite parse_chars_escape, expect_here by reflexivity.
      rewrite Hparse by (simpl; auto; lia).
      rewrite expect_other, expect_here by reflexivity. reflexivity.
  - destruct (IH Hjl ltac:(discriminate))
      as (parts & Ep & Hplen & (r2 & Er2) & Hpparse).
    destruct parts as [|q parts]; [discriminate|].
    exists ((quote k ++ ":" ++ s) :: q :: parts). split; [|split; [|split]].
    + change (map (fun m => (fst m, stringify_value (snd m)))
                ((k, v) :: m2 :: l))
        with ((k, stringify_value v)
              :: map (fun m => (fst m, stringify_value (snd m))) (m2 :: l)).
      cbn [object_parts]. rewrite Es, Ep. reflexivity.
    + rewrite join_cons, !length_append.
      unfold members_size in *. simpl in *. lia.
    + eexists. rewrite join_cons. unfold quote. simpl. reflexivity.
    + intros fuel rest Hf. rewrite join_cons.
      unfold members_size in Hf. simpl in Hf.
      destruct fuel as [|fuel]; [lia|]. rewrite parse_members_S.
      rewrite append_assoc, member_text, expect_here by reflexivity.
      rewrite parse_chars_escape, expect_here by reflexivity.
      rewrite append_assoc.
      rewrite Hparse by (simpl; auto; lia).
      change ("," ++ join "," (q :: parts) ++ String "}" rest)
        with (String "," (join "," (q :: parts) ++ String "}" rest)).
      rewrite expect_here by reflexivity.
      rewrite Hpparse by (unfold members_size; simpl; lia). reflexivity.
Qed.

Lemma parse_value_S fuel s :
  parse_value (S fuel) s =
  match skip_ws s with
  | EmptyString => None
  | String c r =>
      if Ascii.eqb c "n" then literal "ull" r Null
      else if Ascii.eqb c "t" then literal "rue" r (Boolean true)
      else if Ascii.eqb c "f" then literal "alse" r (Boolean false)
      else if Ascii.eqb c dquote then
        match parse_chars r with
        | Some (str, r') => Some (Str str, r')
        | None => None
        end
      else if Ascii.eqb c "[" then
        match expect "]" r with
        | Some r' => Some (Arr [], r')
        | None =>
            match parse_elements fuel r with
            | Some (items, r') => Some (Arr items, r')
            | None => None
            end
        end
      else if Ascii.eqb c "{" then
        match expect "}" r with
        | Some r' => Some (Obj [], r')
        | None =>
            match parse_members fuel r with
            | Some (members, r') => Some (Obj members, r')
            | None => None
            end
        end
      else parse_number (String c r)
  end.
Proof. reflexivity. Qed.

Lemma round_trips_all v : round_trips v.
Proof.
  induction v as [ | | b | n | s | items IH | members IH | n | m k]
    using value_rect'; intros Hj; try discriminate.
  - exists "null". split; [|split; [|split]].
    + reflexivity.
    + simpl. lia.
    + exists "n"%char, "ull". auto.
    + intros [|fuel] rest Hf _; [simpl in Hf; lia | reflexivity].
  - exists (if b then "true" else "false"). split; [|split; [|split]].
    + now destruct b.
    + destruct b; simpl; lia.
    + destruct b; [exists "t"%char, "rue" | exists "f"%char, "alse"]; auto.
    + intros [|fuel] rest Hf _; [simpl in Hf; lia |].
      destruct b; reflexivity.
  - exists (number_text n).
    destruct (point_text_head n 0) as (c & r & E & Hc).
    fold (number_text n) in E.
    destruct (number_head_dispatch c Hc)
      as (Hws & H1 & H2 & H3 & H4 & H5 & H6 & Hsv).
    split; [|split; [|split]].
    + reflexivity.
    + rewrite E. simpl. lia.
    + eauto.
    + intros [|fuel] rest Hf Hr; [simpl in Hf; lia|]. rewrite parse_value_S.
      pose proof (parse_number_text n rest Hr) as Hp.
      rewrite E in *. simpl. rewrite Hws, H1, H2, H3, H4, H5, H6.
      simpl in Hp. rewrite Hp. reflexivity.
  - exists (quote s). split; [|split; [|split]].
    + reflexivity.
    + pose proof (quote_length s). simpl. lia.
    + eexists _, _. split; reflexivity.
    + intros [|fuel] rest Hf _; [simpl in Hf; lia|]. rewrite parse_value_S.
      rewrite quote_append. simpl skip_ws. cbn iota.
      change (Ascii.eqb dquote "n") with false.
      change (Ascii.eqb dquote "t") with false.
      change (Ascii.eqb dquote "f") with false.
      change (Ascii.eqb dquote dquote) with true. cbn iota.
      rewrite parse_chars_escape. reflexivity.
  - simpl in Hj. destruct items as [|x items].
    + exists "[]". split; [|split; [|split]].
      * reflexivity.
      * simpl. lia.
      * exists "["%char, "]". auto.
      * intros [|fuel] rest Hf _; [simpl in Hf; lia | reflexivity].
    + destruct (round_trips_elements (x :: items) IH Hj ltac:(discriminate))
        as (parts & Ep & Hlen & (c & r & Ec & Hc) & Hparse).
      exists ("[" ++ join "," parts ++ "]"). split; [|split; [|split]].
      * cbn [stringify_value]. now rewrite Ep.
      * cbn [size]. fold (items_size (x :: items)).
        simpl String.length. rewrite length_append. simpl. lia.
      * exists "["%char, (join "," parts ++ "]"). auto.
      * intros [|fuel] rest Hf _; [simpl in Hf; lia|].
        rewrite parse_value_S.
        change (("[" ++ join "," parts ++ "]") ++ rest)
          with (String "[" ((join "," parts ++ "]") ++ rest)).
        rewrite append_assoc. simpl skip_ws. cbn iota.
        change (Ascii.eqb "[" "n") with false.
        change (Ascii.eqb "[" "t") with false.
        change (Ascii.eqb "[" "f") with false.
        change (Ascii.eqb "[" dquote) with false.
        change (Ascii.eqb "[" "[") with true. cbn iota.
        destruct (starts_value_not_closing c Hc) as [Hc1 _].
        assert (expect "]" (join "," parts ++ String "]" rest) = None)
          as -> by (rewrite Ec; apply expect_other;
                    auto using starts_value_not_ws).
        rewrite Hparse; [reflexivity|].
        cbn [size] in Hf. fold (items_size (x :: items)) in Hf. lia.
  - simpl in Hj. destruct members as [|x members].
    + exists "{}". split; [|split; [|split]].
      * reflexivity.
      * simpl. lia.
      * exists "{"%char, "}". auto.
      * intros [|fuel] rest Hf _; [simpl in Hf; lia | reflexivity].
    + destruct (round_trips_members (x :: members) IH Hj ltac:(discriminate))
        as (parts & Ep & Hlen & (r & Er) & Hparse).
      exists ("{" ++ join "," parts ++ "}"). split; [|split; [|split]].
      * cbn [stringify_value]. now rewrite Ep.
      * cbn [size]. fold (members_size (x :: members)).
        simpl String.length. rewrite length_append. simpl. lia.
      * exists "{"%char, (join "," parts ++ "}"). auto.
      * intros [|fuel] rest Hf _; [simpl in Hf; lia|].
        rewrite parse_value_S.
        change (("{" ++ join "," parts ++ "}") ++ rest)
          with (String "{" ((join "," parts ++ "}") ++ rest)).
        rewrite append_assoc. simpl skip_ws. cbn iota.
        change (Ascii.eqb "{" "n") with false.
        change (Ascii.eqb "{" "t") with false.
        change (Ascii.eqb "{" "f") with false.
        change (Ascii.eqb "{" dquote) with false.
        change (Ascii.eqb "{" "[") with false.
        change (Ascii.eqb "{" "{") with true. cbn iota.
        assert (expect "}" (join "," parts ++ String "}" rest) = None)
          as -> by (rewrite Er; apply expect_other; reflexivity).
        rewrite Hparse; [reflexivity|].
        cbn [size] in Hf. fold (members_size (x :: members)) in Hf. lia.
  - exists (decimal_text m k).
    destruct (point_text_head m (Zpos k)) as (c & r & E & Hc).
    fold (decimal_text m k) in E.
    destruct (number_head_dispatch c Hc)
      as (Hws & H1 & H2 & H3 & H4 & H5 & H6 & Hsv).
    simpl in Hj. apply negb_true_iff, Z.eqb_neq in Hj.
    split; [|split; [|split]].
    + reflexivity.
    + rewrite E. simpl. lia.
    + eauto.
    + intros [|fuel] rest Hf Hr; [simpl in Hf; lia|]. rewrite parse_value_S.
      pose proof (parse_decimal_text m k rest Hj Hr) as Hp.
      rewrite E in *. simpl. rewrite Hws, H1, H2, H3, H4, H5, H6.
      simpl in Hp. rewrite Hp. reflexivity.
Qed.

(** Numbers with a fraction or an exponent are read, and every number is
    written the way Number::toString writes it. *)
Example numbers_read_and_written :
  let v := Arr [Dec 15 1; Dec (-25) 4; Num (10 ^ 21); Num 100; Dec 1 6;
                Dec 1 7; Num 0] in
  parse "[1.5,-2.5e-3,1e+21,1E2,0.000001,1e-7,-0.0]" = Some v /\
  stringify v = Some "[1.5,-0.0025,1e+21,100,0.000001,1e-7,0]".
Proof. vm_compute. split; reflexivity. Qed.

(** JSON.parse undoes JSON.stringify on every JSON value; the text is
    never empty. *)
Theorem parse_stringify v :
  json_value v = true ->
  exists s, stringify v = Some s /\ s <> "" /\ parse s = Some v.
Proof.
  intros Hj.
  destruct (round_trips_all v Hj) as (s & Es & Hlen & (c & r & Ec & _) & Hp).
  exists s. unfold stringify, parse. rewrite Es. repeat split.
  - rewrite Ec. discriminate.
  - specialize (Hp (S (String.length s)) "" ltac:(lia) I).
    rewrite append_nil_r in Hp. rewrite Hp. reflexivity.
Qed.


End JSONFacts.

(** ** The two Storage instances are lawful *)

Module JSMapFacts.

Lemma get_set k v m : JSMap.get k (JSMap.set k v m) = Some v.
Proof.
  induction m as [|[k' v'] m IH]; simpl.
  - now rewrite String.eqb_refl.
  - destruct (String.eqb_spec k' k) as [->|Hne]; simpl.
    + now rewrite String.eqb_refl.
    + apply String.eqb_neq in Hne. now rewrite Hne.
Qed.

Lemma has_set k v m : JSMap.has k (JSMap.set k v m) = true.
Proof.
  induction m as [|[k' v'] m IH]; simpl.
  - now rewrite String.eqb_refl.
  - destruct (String.eqb_spec k' k) as [->|Hne]; simpl.
    + now rewrite String.eqb_refl.
    + apply String.eqb_neq in Hne. now rewrite Hne.
Qed.

Lemma has_delete k m : JSMap.has k (JSMap.delete k m) = false.
Proof.
  induction m as [|[k' v'] m IH]; simpl; [reflexivity|].
  destruct (String.eqb k' k) eqn:E; simpl; [assumption|now rewrite E].
Qed.

Lemma has_delete_other k k' m :
  k' <> k -> JSMap.has k' (JSMap.delete k m) = JSMap.has k' m.
Proof.
  intros Hne. induction m as [|[k0 v0] m IH]; simpl; [reflexivity|].
  destruct (String.eqb_spec k0 k) as [->|Hk]; simpl.
  - apply String.eqb_neq in Hne. rewrite String.eqb_sym in Hne.
    now rewrite Hne.
  - now rewrite IH.
Qed.

Lemma get_delete_other k k' m :
  k' <> k -> JSMap.get k' (JSMap.delete k m) = JSMap.get k' m.
Proof.
  intros Hne. induction m as [|[k0 v0] m IH]; simpl; [reflexivity|].
  destruct (String.eqb_spec k0 k) as [->|Hk]; simpl.
  - apply String.eqb_neq in Hne. rewrite String.eqb_sym in Hne.
    now rewrite Hne.
  - now rewrite IH.
Qed.

Lemma size_delete k m : JSMap.size (JSMap.delete k m) <= JSMap.size m.
Proof.
  unfold JSMap.size.
  induction m as [|[k' v'] m IH]; simpl; [lia|].
  destruct (String.eqb k' k); simpl; lia.
Qed.

End JSMapFacts.

#[export] Instance memoryStorage_laws : StorageLaws JSMap.t.
Proof.
  split; simpl.
  - intros k v b b' [= <-].
    now rewrite JSMapFacts.has_set, JSMapFacts.get_set.
  - intros k b b' [= <-]. now rewrite JSMapFacts.has_delete.
  - intros k k' b b' [= <-] Hne.
    now rewrite JSMapFacts.has_delete_other, JSMapFacts.get_delete_other.
  - intros k b b' [= <-]. apply JSMapFacts.size_delete.
Qed.

#[export] Instance hostStorage_laws : StorageLaws Host.
Proof.
  split; simpl.
  - intros k v b b'. destruct (locked b); [discriminate|].
    destruct (Nat.leb _ _); [|discriminate]. intros [= <-]. simpl.
    now rewrite JSMapFacts.has_set, JSMapFacts.get_set.
  - intros k b b'. destruct (locked b); [discriminate|].
    intros [= <-]. simpl. now rewrite JSMapFacts.has_delete.
  - intros k k' b b'. destruct (locked b); [discriminate|].
    intros [= <-] Hne. simpl.
    now rewrite JSMapFacts.has_delete_other, JSMapFacts.get_delete_other.
  - intros k b b'. destruct (locked b); [discriminate|].
    intros [= <-]. simpl. apply JSMapFacts.size_delete.
Qed.

(** ** Envelopes *)

Lemma Stored_json v e : json_value v = true -> json_value (Stored v e) = true.
Proof. intros Hv. destruct e; simpl; now rewrite Hv. Qed.

Lemma safeParse_stringify v :
  json_value v = true ->
  exists raw, JSON.stringify v = Some raw /\ safeParse (Some raw) = v.
Proof.
  intros Hv. destruct (JSONFacts.parse_stringify v Hv) as (raw & Es & Hne & Ep).
  exists raw. split; [assumption|]. unfold safeParse.
  destruct (String.eqb_spec raw ""); [contradiction|]. now rewrite Ep.
Qed.

Lemma prop_v_Stored v e : prop "v" (Stored v e) = v.
Proof. destruct e; reflexivity. Qed.

Lemma prop_e_Stored v e :
  prop "e" (Stored v e) = match e with Some n => Num n | None => Undefined end.
Proof. destruct e; reflexivity. Qed.

Lemma truthy_Stored v e : truthy (Stored v e) = true.
Proof. destruct e; reflexivity. Qed.

Section StoreFacts.

Context {B : Type} `{Storage.Storage B}.

(** [set] in one step. *)
Lemma api_set_eq k v opts (w : World B) :
  api_set k v opts w =
  match JSON.stringify (payload_of w v opts) with
  | None => (Ret tt, w)
  | Some raw =>
      match Storage.setItem k raw (backing w) with
      | None => (Ret tt, w)
      | Some b => (Ret tt, emitted (ChSet k) b w)
      end
  end.
Proof.
  unfold api_set, payload_of, bind, try_catch, JSON_stringify,
    backing_setItem, emit, ret, now, emitted.
  destruct (truthy_ttl opts) as [t|]; simpl;
    (destruct (JSON.stringify _); [|reflexivity]);
    (destruct (Storage.setItem _ _ _); reflexivity).
Qed.

(** [get] in one step. *)
Lemma api_get_eq k (w : World B) :
  api_get k w =
  let parsed := safeParse (Storage.getItem k (backing w)) in
  if is_expired (clock w) parsed
  then (Ret Undefined,
        emitted (ChRemove k)
          match Storage.removeItem k (backing w) with
          | Some b => b
          | None => backing w
          end w)
  else (Ret (if truthy parsed then prop "v" parsed else Undefined), w).
Proof.
  unfold api_get, is_expired, bind, try_catch, backing_getItem,
    backing_removeItem, emit, ret, now, emitted. simpl.
  destruct (truthy (safeParse _)); simpl; [|reflexivity].
  destruct (truthy (prop "e" _)); simpl; [|reflexivity].
  destruct (JSON.gt _ _); simpl; [|reflexivity].
  destruct (Storage.removeItem _ _); reflexivity.
Qed.

Lemma api_has_eq k (w : World B) :
  api_has k w =
  (Ret (negb (is_undefined (match fst (api_get k w) with
                            | Ret v => v
                            | _ => Undefined
                            end))),
   snd (api_get k w)).
Proof.
  unfold api_has, bind, ret. rewrite api_get_eq. simpl.
  destruct (is_expired _ _); reflexivity.
Qed.

Lemma api_remove_eq k (w : World B) :
  api_remove k w =
  match Storage.removeItem k (backing w) with
  | Some b => (Ret tt, emitted (ChRemove k) b w)
  | None => (Throw, emitted (ChRemove k) (backing w) w)
  end.
Proof.
  unfold api_remove, try_finally, backing_removeItem, bind, emit, ret, emitted.
  destruct (Storage.removeItem _ _); reflexivity.
Qed.

Lemma api_clear_eq (w : World B) :
  api_clear w =
  match Storage.clear (backing w) with
  | Some b => (Ret tt, emitted ChClear b w)
  | None => (Throw, emitted ChClear (backing w) w)
  end.
Proof.
  unfold api_clear, try_finally, backing_clear, bind, emit, ret, emitted.
  destruct (Storage.clear _); reflexivity.
Qed.

End StoreFacts.

Section TimeToLive.

Context {B : Type} `{StorageLaws B}.

Lemma get_after_write k raw (w : World B) v e :
  Storage.getItem k (backing w) = Some raw ->
  safeParse (Some raw) = Stored v e ->
  api_get k w =
  if match e with
     | Some n => negb (n =? 0)%Z && (n <? clock w)%Z
     | None => false
     end
  then (Ret Undefined,
        emitted (ChRemove k)
          match Storage.removeItem k (backing w) with
          | Some b => b
          | None => backing w
          end w)
  else (Ret v, w).
Proof.
  intros Hg Hp. rewrite api_get_eq, Hg, Hp. cbv zeta.
  unfold is_expired. rewrite truthy_Stored, prop_e_Stored, prop_v_Stored.
  destruct e as [n|]; reflexivity.
Qed.

Lemma get_absent k (w : World B) :
  Storage.getItem k (backing w) = None -> api_get k w = (Ret Undefined, w).
Proof. intros Hg. rewrite api_get_eq, Hg. reflexivity. Qed.


End TimeToLive.


Section SetGetRemove.

Context {B : Type} `{StorageLaws B}.

(** C3, as amended.  [set] writes an envelope whose expiry is the current
    time plus [options.ttl] exactly when a TTL other than zero is supplied,
    a negative one included; with a zero or an absent TTL the envelope has
    no expiry and the key never expires.  The value is a JSON value and the
    backend accepts the write. *)
Theorem set_expiry_field (w : World B) (k : string) (v : value)
  (opts : option SetOptions) :
  json_value v = true ->
  (forall raw,
     JSON.stringify (payload_of w v opts) = Some raw ->
     Storage.setItem k raw (backing w) <> None) ->
  let w1 := snd (set make k v opts w) in
  let stored := safeParse (Storage.getItem k (backing w1)) in
  prop "v" stored = v /\
  match opts with
  | Some {| ttl := Some t |} =>
      if (t =? 0)%Z
      then prop "e" stored = Undefined /\
           forall T, fst (get make k (with_clock T w1)) = Ret v
      else prop "e" stored = Num (clock w + t)
  | _ =>
      prop "e" stored = Undefined /\
      forall T, fst (get make k (with_clock T w1)) = Ret v
  end.
Proof.
  intros Hv Hw. cbn [set get make]. rewrite api_set_eq.
  destruct (safeParse_stringify (payload_of w v opts)
              (Stored_json v _ Hv)) as (raw & Es & Hp).
  rewrite Es. specialize (Hw raw Es).
  destruct (Storage.setItem k raw (backing w)) as [b|] eqn:Eb; [|easy].
  apply getItem_setItem in Eb. cbn [snd backing emitted].
  rewrite Eb, Hp. unfold payload_of. rewrite prop_v_Stored, prop_e_Stored.
  split; [reflexivity|].
  assert (truthy_ttl opts = None ->
          forall T, fst (api_get k (with_clock T (emitted (ChSet k) b w))) =
                    Ret v) as Hnever.
  { intros E T.
    rewrite (get_after_write k raw _ v None); [reflexivity|assumption|].
    rewrite Hp. unfold payload_of. now rewrite E. }
  destruct opts as [[[t|]]|]; cbn [truthy_ttl ttl] in *.
  - destruct (t =? 0)%Z; [split; [reflexivity|auto]|reflexivity].
  - split; [reflexivity|auto].
  - split; [reflexivity|auto].
Qed.

(** C4.  When the write of [set] fails, because the value cannot be
    serialised or because the backend refuses it, [set] returns normally
    and leaves the store as it was: nothing is stored and no event is
    published.  When the write succeeds, exactly one [Set{key}] event is
    published, and it is delivered to the listeners. *)
Theorem set_failure_is_silent (w : World B) (k : string) (v : value)
  (opts : option SetOptions) :
  let payload := Stored v (option_map (Z.add (clock w)) (truthy_ttl opts)) in
  ((JSON.stringify payload = None \/
    exists raw, JSON.stringify payload = Some raw /\
                Storage.setItem k raw (backing w) = None) ->
   set make k v opts w = (Ret tt, w)) /\
  (forall raw b,
     JSON.stringify payload = Some raw ->
     Storage.setItem k raw (backing w) = Some b ->
     let r := set make k v opts w in
     fst r = Ret tt /\
     backing (snd r) = b /\
     published (snd r) = (published w ++ [ChSet k])%list /\
     delivered (snd r) =
       (delivered w ++ flat_map (fun fn => call fn (ChSet k)) (fns w))%list).
Proof.
  cbn [set make]. rewrite api_set_eq. fold (payload_of w v opts). split.
  - intros [E | (raw & E & Eb)]; rewrite E; [reflexivity|].
    now rewrite Eb.
  - intros raw b E Eb. rewrite E, Eb. auto.
Qed.

(** C5, as amended.  Whether or not [k] existed and whether or not the
    backend removal fails, [remove(k)] publishes exactly one [Remove{k}]
    event; when the backend removal does not fail, [remove] returns
    normally and [get(k)] is absent afterwards, with no further event. *)
Theorem remove_then_absent (w : World B) (k : string) :
  let r := remove make k w in
  published (snd r) = (published w ++ [ChRemove k])%list /\
  (Storage.removeItem k (backing w) <> None ->
   fst r = Ret tt /\
   get make k (snd r) = (Ret Undefined, snd r)).
Proof.
  cbn [remove get make]. rewrite api_remove_eq.
  destruct (Storage.removeItem k (backing w)) as [b|] eqn:Er.
  - split; [reflexivity|]. intros _. split; [reflexivity|].
    apply getItem_removeItem in Er. cbn [snd].
    now rewrite get_absent.
  - split; [reflexivity|]. intros Hne. now elim Hne.
Qed.


End SetGetRemove.

(** A TTL of -5 at time 100 gives the expiry 95. *)
Lemma set_expiry_field_witness :
  let w1 := snd (set make "k" (Num 1) (Some (mkSetOptions (Some (-5)%Z)))
                   (fresh 100)) in
  prop "e" (safeParse (Storage.getItem "k" (backing w1))) = Num 95.
Proof.
  assert (forall raw,
            JSON.stringify
              (payload_of (fresh 100) (Num 1)
                 (Some (mkSetOptions (Some (-5)%Z)))) = Some raw ->
            Storage.setItem "k" raw (backing (fresh 100)) <> None)
    as Hw by (intros raw _; discriminate).
  pose proof (set_expiry_field (fresh 100) "k" (Num 1)
                (Some (mkSetOptions (Some (-5)%Z))) eq_refl Hw) as [_ H].
  exact H.
Defined.

(** C3, as stated, fails: a negative TTL is truthy, so the envelope gets an
    expiry, five milliseconds in the past here, and the key is expired at
    once. *)
Lemma negative_ttl_sets_expiry :
  let w1 := snd (set make "k" (Num 1) (Some (mkSetOptions (Some (-5)%Z)))
                   (fresh 100)) in
  prop "e" (safeParse (Storage.getItem "k" (backing w1))) = Num 95 /\
  fst (get make "k" w1) = Ret Undefined.
Proof. vm_compute. split; reflexivity. Qed.

(** A host area of five characters refuses the envelope of a ten-character
    string. *)
Lemma set_failure_is_silent_witness :
  let w := mkWorld (mkHost JSMap.empty 5 false) [User 1] 0%Z [] [] 0 in
  set make "k" (Str "0123456789") None w = (Ret tt, w) /\
  set make "k" (BigInt 7) None w = (Ret tt, w).
Proof.
  intros w. split.
  - apply (set_failure_is_silent w "k" (Str "0123456789") None).
    right. eexists. split; reflexivity.
  - apply (set_failure_is_silent w "k" (BigInt 7) None).
    left. reflexivity.
Defined.

(** A key written to a fresh store, removed, and read. *)
Lemma remove_then_absent_witness :
  let w := snd (set make "k" (Num 1) None (fresh 0)) in
  get make "k" (snd (remove make "k" w)) =
  (Ret Undefined, snd (remove make "k" w)).
Proof.
  intros w.
  assert (Storage.removeItem "k" (backing w) <> None) as Hr by discriminate.
  exact (proj2 (proj2 (remove_then_absent w "k") Hr)).
Defined.

(** C5, as stated, fails on a backend whose removal throws: the event is
    published, the exception reaches the caller, and [get(k)] still
    returns the value. *)
Lemma remove_on_locked_backend :
  let w := mkWorld (mkHost [("k", envelope_text (Num 1) None)] 100 true)
             [] 0%Z [] [] 0 in
  let r := remove make "k" w in
  fst r = Throw /\
  published (snd r) = [ChRemove "k"] /\
  fst (get make "k" (snd r)) = Ret (Num 1).
Proof. vm_compute. repeat split; reflexivity. Qed.



Section Enumeration.

Context {B : Type} `{StorageLaws B}.

(** [has] always returns, and never grows the backend. *)
Lemma api_has_returns k (w : World B) :
  exists b w',
    api_has k w = (Ret b, w') /\
    Storage.length (backing w') <= Storage.length (backing w).
Proof.
  rewrite api_has_eq, api_get_eq. cbv zeta.
  destruct (is_expired _ _); cbn [fst snd]; eexists _, _;
    (split; [reflexivity|]); cbn [backing emitted]; [|lia].
  destruct (Storage.removeItem k (backing w)) as [b|] eqn:Er; [|lia].
  now apply length_removeItem in Er.
Qed.

(** The loop of [keys] ends within the fuel [api_keys] gives it, and never
    collects the empty key. *)
Lemma keys_loop_returns fuel :
  forall i ks (w : World B),
    Storage.length (backing w) - i <= fuel ->
    ~ In "" ks ->
    exists ks' w', keys_loop fuel i ks w = (Ret ks', w') /\ ~ In "" ks'.
Proof.
  induction fuel as [|fuel IH]; intros i ks w Hf Hks; cbn [keys_loop].
  - destruct (Nat.ltb_spec i (Storage.length (backing w))); [lia|].
    eauto.
  - destruct (Nat.ltb_spec i (Storage.length (backing w))); [|eauto].
    destruct (Storage.key i (backing w)) as [k|]; [|apply IH; [lia|easy]].
    destruct (String.eqb_spec k "") as [->|Hk]; [apply IH; [lia|easy]|].
    unfold bind. destruct (api_has_returns k w) as (b & w' & -> & Hlen).
    apply IH; [lia|]. destruct b; [|assumption].
    rewrite in_app_iff. intros [Hin | [E | []]]; [easy|]. now apply Hk.
Qed.

(** [keys] always returns a list. *)
Lemma keys_total (w : World B) :
  exists ks w', keys make w = (Ret ks, w') /\ ~ In "" ks.
Proof.
  cbn [keys make]. unfold api_keys. apply keys_loop_returns; [lia|easy].
Qed.

(** C10.  In every state of the store [keys()] returns a list that does
    not hold the empty key, also right after [set("", v)] succeeded and
    while [get("")] returns [v]. *)
Theorem keys_never_lists_empty_key (w : World B) :
  (exists ks w', keys make w = (Ret ks, w') /\ ~ In "" ks) /\
  (forall v,
     json_value v = true ->
     (forall raw,
        JSON.stringify (Stored v None) = Some raw ->
        Storage.setItem "" raw (backing w) <> None) ->
     let w1 := snd (set make "" v None w) in
     fst (get make "" w1) = Ret v /\
     exists ks w2, keys make w1 = (Ret ks, w2) /\ ~ In "" ks).
Proof.
  split; [apply keys_total|]. intros v Hv Hw w1.
  split; [|apply keys_total].
  subst w1. cbn [set get make]. rewrite api_set_eq.
  change (payload_of w v None) with (Stored v None).
  destruct (safeParse_stringify (Stored v None) (Stored_json v _ Hv))
    as (raw & Es & Hp).
  rewrite Es. specialize (Hw raw Es).
  destruct (Storage.setItem "" raw (backing w)) as [b|] eqn:Eb; [|easy].
  apply getItem_setItem in Eb. cbn [snd].
  rewrite (get_after_write "" raw _ v None); [reflexivity|assumption..].
Qed.

End Enumeration.

(** The empty key, written to a fresh store. *)
Lemma keys_never_lists_empty_key_witness :
  let w1 := snd (set make "" (Str "v") None (fresh 0)) in
  fst (get make "" w1) = Ret (Str "v") /\
  exists ks w2, keys make w1 = (Ret ks, w2) /\ ~ In "" ks.
Proof.
  assert (forall raw,
            JSON.stringify (Stored (Str "v") None) = Some raw ->
            Storage.setItem "" raw (backing (fresh 0)) <> None)
    as Hw by (intros raw _; discriminate).
  exact (proj2 (keys_never_lists_empty_key (fresh 0)) (Str "v") eq_refl Hw).
Defined.

(** ** What [keys] lists is live *)

Section EnumerationIsSound.

Context {B : Type} `{StorageLaws B}.

Lemma api_has_live k (w : World B) :
  live_entry (clock w) (Storage.getItem k (backing w)) = true ->
  api_has k w = (Ret true, w).
Proof.
  unfold live_entry. cbv zeta. intros Hl.
  apply andb_true_iff in Hl as [He Hv]. apply negb_true_iff in He.
  rewrite api_has_eq, api_get_eq. cbv zeta. rewrite He. cbn [fst snd].
  now rewrite Hv.
Qed.

(** One call of [has]: either the entry is live and nothing changes, or
    the answer is false and at most the entry of [k] itself is removed. *)
Lemma api_has_step k (w : World B) :
  (api_has k w = (Ret true, w) /\
   live_entry (clock w) (Storage.getItem k (backing w)) = true) \/
  (exists w',
     api_has k w = (Ret false, w') /\
     clock w' = clock w /\
     live_entry (clock w) (Storage.getItem k (backing w)) = false /\
     forall k', k' <> k ->
       Storage.getItem k' (backing w') = Storage.getItem k' (backing w)).
Proof.
  destruct (live_entry (clock w) (Storage.getItem k (backing w))) eqn:El.
  - left. split; [now apply api_has_live|reflexivity].
  - right. rewrite api_has_eq, api_get_eq. cbv zeta.
    unfold live_entry in El. cbv zeta in El.
    destruct (is_expired _ _) eqn:Ee; cbn [fst snd negb andb] in *.
    + eexists. split; [reflexivity|]. split; [reflexivity|].
      split; [reflexivity|]. intros k' Hne. cbn [backing emitted].
      destruct (Storage.removeItem k (backing w)) as [b|] eqn:Er;
        [|reflexivity].
      now apply (getItem_removeItem_other k k') in Er.
    + rewrite El. eexists. repeat split; reflexivity.
Qed.

Lemma keys_loop_sound fuel :
  forall i ks (w : World B) ks' w',
    keys_loop fuel i ks w = (Ret ks', w') ->
    (forall k, In k ks ->
       live_entry (clock w) (Storage.getItem k (backing w)) = true) ->
    forall k, In k ks' ->
      live_entry (clock w') (Storage.getItem k (backing w')) = true.
Proof.
  induction fuel as [|fuel IH]; intros i ks w ks' w'; cbn [keys_loop].
  - destruct (Nat.ltb _ _); [discriminate|]. intros [= <- <-]. auto.
  - destruct (Nat.ltb _ _); [|intros [= <- <-]; auto].
    destruct (Storage.key i (backing w)) as [k0|]; [|apply IH].
    destruct (String.eqb k0 ""); [apply IH|].
    unfold bind.
    destruct (api_has_step k0 w) as [[-> Hl] | (w1 & -> & Hc & Hl & Hfr)].
    + intros Hloop Hks. apply (IH _ _ _ _ _ Hloop).
      intros k Hin. apply in_app_iff in Hin as [Hin | [<- | []]]; auto.
    + intros Hloop Hks. apply (IH _ _ _ _ _ Hloop).
      intros k Hin. specialize (Hks k Hin). rewrite Hc.
      rewrite Hfr; [assumption|]. intros ->. congruence.
Qed.

(** X10.  Every key that [keys()] lists answers true to [has] after the
    scan: the list never holds an expired key. *)
Lemma keys_lists_only_live_keys (w : World B) ks w' :
  keys make w = (Ret ks, w') ->
  forall k, In k ks -> has make k w' = (Ret true, w').
Proof.
  cbn [keys has make]. unfold api_keys. intros Hk k Hin.
  apply api_has_live.
  apply (keys_loop_sound _ _ _ _ _ _ Hk); [intros k' []|assumption].
Qed.

End EnumerationIsSound.

(** ** Namespaces *)

Section Namespaces.

Context {B : Type} `{StorageLaws B}.

(** X17.  What is written through a namespace is read back under the
    qualified key, through the store and through the namespace.  The
    value is a JSON value and the backend accepts the write. *)
Lemma prefixed_set_then_get (w : World B) (p k : string) (v : value) :
  json_value v = true ->
  (forall raw,
     JSON.stringify (Stored v None) = Some raw ->
     Storage.setItem (p ++ ":" ++ k) raw (backing w) <> None) ->
  let w1 := snd (set (withPrefix make p) k v None w) in
  fst (get make (p ++ ":" ++ k) w1) = Ret v /\
  fst (get (withPrefix make p) k w1) = Ret v.
Proof.
  intros Hv Hw w1.
  assert (fst (api_get (p ++ ":" ++ k) w1) = Ret v) as Hg; [|now split].
  subst w1. cbn [set withPrefix make]. rewrite api_set_eq.
  change (payload_of w v None) with (Stored v None).
  destruct (safeParse_stringify (Stored v None) (Stored_json v _ Hv))
    as (raw & Es & Hp).
  rewrite Es. specialize (Hw raw Es).
  destruct (Storage.setItem _ raw (backing w)) as [b|] eqn:Eb; [|easy].
  apply getItem_setItem in Eb. cbn [snd].
  rewrite (get_after_write _ raw _ v None); [reflexivity|assumption..].
Qed.

Lemma reads_eq k (w : World B) :
  reads k w =
  let parsed := safeParse (Storage.getItem k (backing w)) in
  if is_expired (clock w) parsed then Undefined
  else if truthy parsed then prop "v" parsed else Undefined.
Proof.
  unfold reads. rewrite api_get_eq. cbv zeta.
  now destruct (is_expired _ _).
Qed.

Lemma framed_ret k A (a : A) : Framed k (ret a : M B A).
Proof. intros w. auto. Qed.

Lemma framed_bind k A C (m : M B A) (f : A -> M B C) :
  Framed k m -> (forall a, Framed k (f a)) -> Framed k (bind m f).
Proof.
  intros Hm Hf w. unfold bind. specialize (Hm w).
  destruct (m w) as [[a | |] w']; cbn [snd] in *; try assumption.
  destruct Hm as (Hc & Hp & Hr). destruct (Hf a w') as (Hc' & Hp' & Hr').
  repeat split; congruence.
Qed.

Lemma framed_for_each k A (l : list A) (body : A -> M B unit) :
  (forall a, Framed k (body a)) -> Framed k (for_each l body).
Proof.
  intros Hb. induction l as [|a l IH]; cbn [for_each].
  - apply framed_ret.
  - apply framed_bind; auto.
Qed.

(** Lazy expiry changes the answer of no [get]: the entry it removes was
    already read as absent. *)
Lemma framed_api_get k k0 : Framed k (api_get k0 : M B value).
Proof.
  intros w. rewrite api_get_eq. cbv zeta.
  destruct (is_expired _ _) eqn:Ee; cbn [snd]; [|auto].
  split; [reflexivity|]. split.
  - unfold cleared, emitted. cbn [published].
    rewrite filter_app. simpl. now rewrite app_nil_r.
  - rewrite !reads_eq. cbv zeta. cbn [clock backing emitted].
    destruct (Storage.removeItem k0 (backing w)) as [b|] eqn:Er;
      [|reflexivity].
    destruct (String.eqb_spec k k0) as [->|Hne].
    + rewrite (getItem_removeItem _ _ _ Er), Ee. reflexivity.
    + now rewrite (getItem_removeItem_other _ _ _ _ Er Hne).
Qed.

Lemma framed_api_has k k0 : Framed k (api_has k0 : M B bool).
Proof.
  apply framed_bind; [apply framed_api_get|]. intros v. apply framed_ret.
Qed.

Lemma framed_keys_loop k fuel :
  forall i ks, Framed k (keys_loop fuel i ks : M B (list string)).
Proof.
  induction fuel as [|fuel IH]; intros i ks w; cbn [keys_loop].
  - destruct (Nat.ltb _ _); auto.
  - destruct (Nat.ltb _ _); [|auto].
    destruct (Storage.key i (backing w)) as [k0|]; [|apply IH].
    destruct (String.eqb k0 ""); [apply IH|].
    apply (framed_bind k _ _ (api_has k0)); [apply framed_api_has|].
    intros b. apply IH.
Qed.

Lemma framed_api_keys k : Framed k (api_keys : M B (list string)).
Proof. intros w. unfold api_keys. apply framed_keys_loop. Qed.

Lemma framed_api_remove k k0 :
  k <> k0 -> Framed k (api_remove k0 : M B unit).
Proof.
  intros Hne w. rewrite api_remove_eq.
  assert (forall b, cleared (emitted (ChRemove k0) b w) = cleared w) as Hcl.
  { intros b. unfold cleared, emitted. cbn [published].
    rewrite filter_app. simpl. now rewrite app_nil_r. }
  destruct (Storage.removeItem k0 (backing w)) as [b|] eqn:Er; cbn [snd];
    (split; [reflexivity|]); (split; [apply Hcl|]);
    rewrite !reads_eq; cbv zeta; cbn [clock backing emitted];
    [|reflexivity].
  now rewrite (getItem_removeItem_other _ _ _ _ Er Hne).
Qed.

(** X16.  However far the namespaced [clear()] gets, it publishes no
    [Clear] and every key outside the namespace reads as before. *)
Lemma namespaced_clear_frame (w : World B) (p k : string) :
  startsWith k (p ++ ":") = false ->
  let r := clear (withPrefix make p) w in
  cleared (snd r) = cleared w /\ reads k (snd r) = reads k w.
Proof.
  intros Hk. cbn [clear withPrefix keys remove make].
  assert (Framed k
            (ks <- api_keys ;;
             for_each ks
               (fun k0 : string =>
                  if startsWith k0 (p ++ ":")
                  then api_remove k0
                  else (ret tt : M B unit)))) as Hf.
  { apply framed_bind; [apply framed_api_keys|]. intros ks.
    apply framed_for_each. intros k0.
    destruct (startsWith k0 (p ++ ":")) eqn:E; [|apply framed_ret].
    apply framed_api_remove. intros ->. congruence. }
  destruct (Hf w) as (_ & Hc & Hr). now split.
Qed.

End Namespaces.

(** ** The scan of [keys] skips the entry after a purged one *)

(** C2: [keys()] returns every key of the backend that is not expired.
    The code does not.  Here ["b"] is in the backend and not expired,
    [has("b")] is true before and after the scan, yet [keys()] returns the
    empty list: purging ["a"] at index 0 moves ["b"] to index 0, and the
    loop goes on at index 1. *)
Lemma keys_skips_live_key :
  fst (has make "b" expired_then_live) = Ret true /\
  fst (keys make expired_then_live) = Ret [] /\
  fst (has make "b" (snd (keys make expired_then_live))) = Ret true /\
  JSMap.keys (backing (snd (keys make expired_then_live))) = ["b"].
Proof. vm_compute. repeat split; reflexivity. Qed.

(** C7: after [withPrefix(store, p).set(k, v)], the store reads [v] under
    [p + ":" + k] and the namespaced [keys()] lists [k].  The code misses
    the second half, by the same skip.  Here, after an expired key ["z"],
    the namespaced [set("k", "dark")] is read back under ["p:k"], but the
    namespaced [keys()] does not list ["k"]. *)
Lemma prefixed_keys_misses_key :
  let w := run [Invoke [] (OpSet "z" (Num 0) (Some (mkSetOptions (Some 5%Z))));
                Elapse 10;
                Invoke ["p"] (OpSet "k" (Str "dark") None)]
               (fresh 0) in
  fst (get make "p:k" w) = Ret (Str "dark") /\
  fst (keys (withPrefix make "p") w) = Ret [].
Proof. vm_compute. split; reflexivity. Qed.

(** C8: [clear()] on a namespace removes every key of the store under the
    prefix, leaves the others, and does not clear the store.  The code
    misses the first part, by the same skip.  Here, with an expired key
    before ["a:x"] and ["b:y"], [clear()] on the namespace ["a"] returns and
    leaves ["a:x"] in the store; ["b:y"] stays, and no [Clear] is
    published. *)
Lemma prefixed_clear_misses_key :
  let w := run [Invoke [] (OpSet "z" (Num 0) (Some (mkSetOptions (Some 5%Z))));
                Invoke [] (OpSet "a:x" (Num 1) None);
                Invoke [] (OpSet "b:y" (Num 2) None);
                Elapse 10]
               (fresh 0) in
  let r := clear (withPrefix make "a") w in
  fst r = Ret tt /\
  fst (get make "a:x" (snd r)) = Ret (Num 1) /\
  fst (get make "b:y" (snd r)) = Ret (Num 2) /\
  JSMap.keys (backing (snd r)) = ["a:x"; "b:y"] /\
  published (snd r) =
    [ChSet "z"; ChSet "a:x"; ChSet "b:y"; ChRemove "z"].
Proof. vm_compute. repeat split; reflexivity. Qed.

(** Without an expired entry in the way, the scenarios of the test suite
    come out as it expects. *)
Example test_keys_lists_only_non_expired_keys :
  let w := run [Invoke [] (OpSet "a" (Num 1) None);
                Invoke [] (OpSet "b" (Num 2) (Some (mkSetOptions (Some 5%Z))))]
               (fresh 0) in
  fst (keys make w) = Ret ["a"; "b"] /\
  fst (keys make (step (Elapse 8) w)) = Ret ["a"].
Proof. vm_compute. split; reflexivity. Qed.

Example test_withPrefix_isolates_namespace :
  let userStore := withPrefix make "user" in
  let w := snd (set userStore "theme" (Str "dark") None (fresh 0)) in
  fst (get userStore "theme" w) = Ret (Str "dark") /\
  fst (get make "user:theme" w) = Ret (Str "dark") /\
  fst (keys userStore w) = Ret ["theme"].
Proof. vm_compute. repeat split; reflexivity. Qed.

Example namespaced_clear_spares_other_namespaces :
  let w := run [Invoke [] (OpSet "a:x" (Num 1) None);
                Invoke [] (OpSet "b:y" (Num 2) None)]
               (fresh 0) in
  JSMap.keys (backing (snd (clear (withPrefix make "a") w))) = ["b:y"].
Proof. vm_compute. reflexivity. Qed.

(** ** Listeners *)

Lemma Fn_eqb_eq f : forall g, Fn_eqb f g = true -> f = g.
Proof.
  induction f as [a | c p f IH]; intros [b | d q g]; simpl; try discriminate.
  - intros E. apply Nat.eqb_eq in E. now subst.
  - intros E. apply andb_true_iff in E as [E Ef].
    apply andb_true_iff in E as [Ec Ep].
    apply Nat.eqb_eq in Ec. apply String.eqb_eq in Ep.
    apply IH in Ef. now subst.
Qed.

Lemma Fn_eqb_refl f : Fn_eqb f f = true.
Proof.
  induction f as [a | c p f IH]; simpl.
  - apply Nat.eqb_refl.
  - now rewrite Nat.eqb_refl, String.eqb_refl, IH.
Qed.

Lemma call_unreached id fn :
  reaches id fn = false ->
  forall c, filter (fun d => Nat.eqb (fst d) id) (call fn c) = [].
Proof.
  induction fn as [a | cl p fn IH]; simpl; intros Hr c.
  - rewrite Nat.eqb_sym. now rewrite Hr.
  - destruct c as [k | k |]; try destruct (startsWith _ _); auto.
Qed.

Lemma deliveries_unreached id c (l : list Fn) :
  forallb (fun fn => negb (reaches id fn)) l = true ->
  filter (fun d => Nat.eqb (fst d) id) (flat_map (fun fn => call fn c) l) = [].
Proof.
  induction l as [|fn l IH]; simpl; [reflexivity|]. intros Hl.
  apply andb_true_iff in Hl as [Hfn Hl]. apply negb_true_iff in Hfn.
  now rewrite filter_app, call_unreached, IH.
Qed.

Lemma Set_add_unreached id (l : list Fn) :
  forallb (fun fn => negb (reaches id fn)) l = true ->
  Set_add (User id) l = (l ++ [User id])%list.
Proof.
  intros Hl. unfold Set_add.
  destruct (existsb (Fn_eqb (User id)) l) eqn:E; [|reflexivity].
  apply existsb_exists in E as (g & Hin & Hg). apply Fn_eqb_eq in Hg.
  subst g. rewrite forallb_forall in Hl. specialize (Hl _ Hin).
  simpl in Hl. now rewrite Nat.eqb_refl in Hl.
Qed.

Lemma Set_delete_unreached id (l : list Fn) :
  forallb (fun fn => negb (reaches id fn)) l = true ->
  Set_delete (User id) (l ++ [User id]) = l.
Proof.
  intros Hl. unfold Set_delete. rewrite filter_app. simpl.
  rewrite Nat.eqb_refl. simpl. rewrite app_nil_r.
  induction l as [|g l IH]; simpl; [reflexivity|].
  simpl in Hl. apply andb_true_iff in Hl as [Hg Hl].
  destruct g as [a | c p g]; simpl in *.
  - apply negb_true_iff in Hg. rewrite Hg. simpl. now rewrite IH.
  - now rewrite IH.
Qed.

Lemma Set_delete_preserves id fn (l : list Fn) :
  forallb (fun g => negb (reaches id g)) l = true ->
  forallb (fun g => negb (reaches id g)) (Set_delete fn l) = true.
Proof.
  intros Hl. rewrite forallb_forall in *. intros g Hin.
  apply filter_In in Hin as [Hin _]. auto.
Qed.

Lemma Set_add_preserves id fn (l : list Fn) :
  reaches id fn = false ->
  forallb (fun g => negb (reaches id g)) l = true ->
  forallb (fun g => negb (reaches id g)) (Set_add fn l) = true.
Proof.
  intros Hfn Hl. unfold Set_add. destruct (existsb _ _); [assumption|].
  rewrite forallb_app, Hl. simpl. now rewrite Hfn.
Qed.

Lemma Set_delete_idempotent fn (l : list Fn) :
  Set_delete fn (Set_delete fn l) = Set_delete fn l.
Proof.
  unfold Set_delete. induction l as [|g l IH]; simpl; [reflexivity|].
  destruct (Fn_eqb fn g) eqn:E; simpl; [assumption|].
  rewrite E. simpl. now rewrite IH.
Qed.

Section Subscriptions.

Context {B : Type} `{Storage.Storage B}.

Lemma received_emitted id c b (w : World B) :
  silent id w -> received id (emitted c b w) = received id w.
Proof.
  intros Hs. unfold received, emitted. cbn [delivered].
  rewrite filter_app, (deliveries_unreached id c _ Hs), app_nil_r.
  reflexivity.
Qed.

(** The subscribed callback gets each event once. *)
Lemma received_emitted_subscribed id c b (w : World B) l :
  fns w = (l ++ [User id])%list ->
  forallb (fun fn => negb (reaches id fn)) l = true ->
  received id (emitted c b w) = (received id w ++ [c])%list.
Proof.
  intros Hf Hl. unfold received, emitted. cbn [delivered].
  rewrite Hf, flat_map_app, !filter_app, (deliveries_unreached id c _ Hl).
  simpl. rewrite Nat.eqb_refl. simpl. now rewrite map_app.
Qed.

Lemma quiet_same id A (m : M B A) :
  (forall w, fns (snd (m w)) = fns w /\ delivered (snd (m w)) = delivered w) ->
  Quiet id m.
Proof.
  intros Hm w Hs. destruct (Hm w) as [Hf Hd].
  unfold silent, received. now rewrite Hf, Hd.
Qed.

Lemma quiet_ret id A (a : A) : Quiet id (ret a : M B A).
Proof. apply quiet_same. intros w. now split. Qed.

Lemma quiet_bind id A C (m : M B A) (f : A -> M B C) :
  Quiet id m -> (forall a, Quiet id (f a)) -> Quiet id (bind m f).
Proof.
  intros Hm Hf w Hs. unfold bind. specialize (Hm w Hs).
  destruct (m w) as [[a | |] w']; cbn [snd] in *; try assumption.
  destruct Hm as [Hs' Hr]. destruct (Hf a w' Hs') as [Hs'' Hr'].
  split; [assumption|congruence].
Qed.

Lemma quiet_try_catch id A (body handler : M B A) :
  Quiet id body -> Quiet id handler -> Quiet id (try_catch body handler).
Proof.
  intros Hb Hh w Hs. unfold try_catch. specialize (Hb w Hs).
  destruct (body w) as [[a | |] w']; cbn [snd] in *; try assumption.
  destruct Hb as [Hs' Hr]. destruct (Hh w' Hs') as [Hs'' Hr'].
  split; [assumption|congruence].
Qed.

Lemma quiet_try_finally id A (body : M B A) (final : M B unit) :
  Quiet id body -> Quiet id final -> Quiet id (try_finally body final).
Proof.
  intros Hb Hf w Hs. unfold try_finally. specialize (Hb w Hs).
  destruct (body w) as [[a | |] w']; cbn [snd] in *; try assumption;
    destruct Hb as [Hs' Hr].
  - destruct (quiet_bind id _ _ final (fun _ => ret a) Hf
                (fun _ => quiet_ret id A a) w' Hs') as [Hs'' Hr'].
    split; [assumption|congruence].
  - destruct (Hf w' Hs') as [Hs'' Hr'].
    destruct (final w') as [[[] | |] w'']; cbn [snd] in *;
      (split; [assumption|congruence]).
Qed.

Lemma quiet_for_each id A (l : list A) (body : A -> M B unit) :
  (forall a, Quiet id (body a)) -> Quiet id (for_each l body).
Proof.
  intros Hb. induction l as [|a l IH]; cbn [for_each].
  - apply quiet_ret.
  - apply quiet_bind; auto.
Qed.

Lemma quiet_emit id c : Quiet id (emit c : M B unit).
Proof.
  intros w Hs. change (snd (emit c w)) with (emitted c (backing w) w).
  split; [exact Hs|now apply received_emitted].
Qed.

Lemma quiet_api_set id k v o : Quiet id (api_set k v o : M B unit).
Proof.
  intros w Hs. rewrite api_set_eq.
  destruct (JSON.stringify _); [|now split].
  destruct (Storage.setItem _ _ _); [|now split].
  split; [exact Hs|now apply received_emitted].
Qed.

Lemma quiet_api_get id k : Quiet id (api_get k : M B value).
Proof.
  intros w Hs. rewrite api_get_eq. cbv zeta.
  destruct (is_expired _ _); [|now split].
  split; [exact Hs|now apply received_emitted].
Qed.

Lemma quiet_api_has id k : Quiet id (api_has k : M B bool).
Proof.
  apply quiet_bind; [apply quiet_api_get|]. intros v. apply quiet_ret.
Qed.

Lemma quiet_api_remove id k : Quiet id (api_remove k : M B unit).
Proof.
  intros w Hs. rewrite api_remove_eq.
  destruct (Storage.removeItem _ _);
    (split; [exact Hs|now apply received_emitted]).
Qed.

Lemma quiet_api_clear id : Quiet id (api_clear : M B unit).
Proof.
  intros w Hs. rewrite api_clear_eq.
  destruct (Storage.clear _);
    (split; [exact Hs|now apply received_emitted]).
Qed.

Lemma quiet_keys_loop id fuel :
  forall i ks, Quiet id (keys_loop fuel i ks : M B (list string)).
Proof.
  induction fuel as [|fuel IH]; intros i ks w Hs; cbn [keys_loop].
  - destruct (Nat.ltb _ _); now split.
  - destruct (Nat.ltb _ _); [|now split].
    destruct (Storage.key i (backing w)) as [k|]; [|now apply IH].
    destruct (String.eqb k ""); [now apply IH|].
    apply (quiet_bind id _ _ (api_has k)); [apply quiet_api_has| |exact Hs].
    intros b. apply IH.
Qed.

Lemma quiet_api_keys id : Quiet id (api_keys : M B (list string)).
Proof. intros w Hs. unfold api_keys. now apply quiet_keys_loop. Qed.

Lemma quiet_on id fn :
  reaches id fn = false -> Quiet id (on fn : M B (Unsubscribe B)).
Proof.
  intros Hfn w Hs. unfold on. cbn [snd]. split; [|reflexivity].
  unfold silent. cbn [fns with_fns]. now apply Set_add_preserves.
Qed.

Lemma quiet_make id : QuietStore id (make : Store B).
Proof.
  split; cbn [set get remove clear has keys subscribe make].
  - apply quiet_api_set.
  - apply quiet_api_get.
  - apply quiet_api_remove.
  - apply quiet_api_clear.
  - apply quiet_api_has.
  - apply quiet_api_keys.
  - apply quiet_on.
Qed.

Lemma quiet_withPrefix id (s : Store B) prefix :
  QuietStore id s -> QuietStore id (withPrefix s prefix).
Proof.
  intros Hq. split; cbn [set get remove clear has keys subscribe withPrefix].
  - intros. apply Hq.
  - intros. apply Hq.
  - intros. apply Hq.
  - apply quiet_bind; [apply Hq|]. intros ks. apply quiet_for_each.
    intros k. destruct (startsWith _ _); [apply Hq|apply quiet_ret].
  - intros. apply Hq.
  - apply quiet_bind; [apply Hq|]. intros ks. apply quiet_ret.
  - intros fn Hfn. apply quiet_bind.
    + apply quiet_same. intros w. now split.
    + intros c. apply Hq. exact Hfn.
Qed.

Lemma quiet_target id prefixes : QuietStore id (target prefixes : Store B).
Proof.
  unfold target. generalize (quiet_make id).
  generalize (make : Store B) as s.
  induction prefixes as [|p ps IH]; intros s Hs; cbn [fold_left].
  - exact Hs.
  - apply IH. now apply quiet_withPrefix.
Qed.

Lemma quiet_step id (c : Call) (w : World B) :
  subscribes id c = false ->
  silent id w ->
  silent id (step c w) /\ received id (step c w) = received id w.
Proof.
  intros Hc Hs. destruct c as [ps op | e | ms]; cbn [step].
  - pose proof (quiet_target id ps) as Hq.
    destruct op as [k v o | k | k | | k | | fn | fn]; cbn [invoke];
      try (apply Hq; assumption);
      try (apply quiet_bind;
           [apply Hq; assumption | intros; apply quiet_ret | assumption]).
    split; [|reflexivity].
    unfold silent. cbn [snd fns with_fns]. now apply Set_delete_preserves.
  - unfold storage_listener.
    destruct (same_area e); cbn [negb]; [|now split].
    destruct (ev_key e); [destruct (newValue e)|]; now apply quiet_emit.
  - now split.
Qed.

Lemma quiet_run id (cs : list Call) :
  forall w : World B,
    forallb (fun c => negb (subscribes id c)) cs = true ->
    silent id w ->
    received id (run cs w) = received id w.
Proof.
  induction cs as [|c cs IH]; intros w Hcs Hs; [reflexivity|].
  cbn [forallb] in Hcs. apply andb_true_iff in Hcs as [Hc Hcs].
  apply negb_true_iff in Hc.
  destruct (quiet_step id c w Hc Hs) as [Hs' Hr].
  change (run (c :: cs) w) with (run cs (step c w)).
  now rewrite IH.
Qed.

(** C9.  A listener that subscribes, sees [set("x", 1)], [remove("x")]
    and [clear()] performed, and then unsubscribes, has received exactly
    [Set{x}], [Remove{x}], [Clear], in that order; whatever the clients
    and the host do afterwards, short of subscribing it again, it
    receives nothing more; and calling the unsubscribe handle again
    returns normally and changes nothing.  The listener is new to the
    store and the backend accepts the write. *)
Theorem subscriber_sees_events_in_order (w : World B) (id : nat)
  (u : Unsubscribe B) (w1 : World B) :
  silent id w ->
  (forall raw,
     JSON.stringify (Stored (Num 1) None) = Some raw ->
     Storage.setItem "x" raw (backing w) <> None) ->
  subscribe make (User id) w = (Ret u, w1) ->
  let w2 := snd (set make "x" (Num 1) None w1) in
  let w3 := snd (remove make "x" w2) in
  let w4 := snd (clear make w3) in
  let w5 := snd (u w4) in
  received id w4 =
    (received id w ++ [ChSet "x"; ChRemove "x"; ChClear])%list /\
  (forall cs,
     forallb (fun c => negb (subscribes id c)) cs = true ->
     received id (run cs w5) =
       (received id w ++ [ChSet "x"; ChRemove "x"; ChClear])%list) /\
  (forall w',
     fst (u w') = Ret tt /\ u (snd (u w')) = (Ret tt, snd (u w'))).
Proof.
  intros Hs Hw Hsub.
  cbn [subscribe set remove clear make] in *. unfold api_subscribe, on in Hsub.
  injection Hsub as <- <-. rewrite (Set_add_unreached id _ Hs).
  set (w1 := with_fns (fns w ++ [User id]) w).
  assert (exists raw, JSON.stringify (Stored (Num 1) None) = Some raw)
    as [raw Es] by (eexists; reflexivity).
  specialize (Hw raw Es).
  destruct (Storage.setItem "x" raw (backing w)) as [b|] eqn:Eb; [|easy].
  clear Hw.
  assert (api_set "x" (Num 1) None w1 = (Ret tt, emitted (ChSet "x") b w1))
    as ->.
  { rewrite api_set_eq.
    change (payload_of w1 (Num 1) None) with (Stored (Num 1) None).
    rewrite Es. change (backing w1) with (backing w). now rewrite Eb. }
  cbn [snd]. set (w2 := emitted (ChSet "x") b w1).
  assert (exists b3, snd (api_remove "x" w2) = emitted (ChRemove "x") b3 w2)
    as [b3 ->].
  { rewrite api_remove_eq.
    destruct (Storage.removeItem _ _); cbn [snd]; eauto. }
  set (w3 := emitted (ChRemove "x") b3 w2).
  assert (exists b4, snd (api_clear w3) = emitted ChClear b4 w3) as [b4 ->].
  { rewrite api_clear_eq. destruct (Storage.clear _); cbn [snd]; eauto. }
  set (w4 := emitted ChClear b4 w3).
  assert (received id w4 =
          (received id w ++ [ChSet "x"; ChRemove "x"; ChClear])%list) as Hr4.
  { unfold w4, w3, w2.
    rewrite !(received_emitted_subscribed id _ _ _ (fns w)) by easy.
    rewrite <- !app_assoc. reflexivity. }
  split; [exact Hr4|]. split.
  - intros cs Hcs. rewrite quiet_run; [exact Hr4|exact Hcs|].
    unfold silent. cbn [snd fns with_fns w4 w3 w2 w1 emitted].
    now rewrite Set_delete_unreached.
  - intros w'. split; [reflexivity|]. cbn [snd fns with_fns].
    rewrite Set_delete_idempotent. reflexivity.
Qed.

End Subscriptions.

(** The scenario on a fresh store, with a write after the listener has
    unsubscribed. *)
Lemma subscriber_sees_events_in_order_witness :
  exists u w1,
    subscribe make (User 1) (fresh 0) = (Ret u, w1) /\
    received 1
      (run [Invoke [] (OpSet "y" (Num 2) None)]
         (snd (u (snd (clear make
                         (snd (remove make "x"
                                 (snd (set make "x" (Num 1) None w1))))))))) =
    [ChSet "x"; ChRemove "x"; ChClear].
Proof.
  eexists _, _. split; [reflexivity|].
  assert (forall raw,
            JSON.stringify (Stored (Num 1) None) = Some raw ->
            Storage.setItem "x" raw (backing (fresh 0)) <> None)
    as Hw by (intros raw _; discriminate).
  exact (proj1 (proj2 (subscriber_sees_events_in_order (fresh 0) 1 _ _
                         eq_refl Hw eq_refl))
           [Invoke [] (OpSet "y" (Num 2) None)] eq_refl).
Defined.

Example test_subscribe_receives_local_events :
  received 1
    (run [Invoke [] (OpSubscribe (User 1));
          Invoke [] (OpSet "x" (Num 1) None);
          Invoke [] (OpRemove "x");
          Invoke [] OpClear;
          Invoke [] (OpUnsubscribe (User 1));
          Invoke [] (OpSet "late" (Num 1) None)]
       (fresh 0)) =
  [ChSet "x"; ChRemove "x"; ChClear].
Proof. reflexivity. Qed.

(** ** memoryStorage *)

Module MemoryFacts.

Lemma has_get k m : JSMap.has k m = true <-> JSMap.get k m <> None.
Proof.
  induction m as [|[k' v'] m IH]; simpl; [easy|].
  destruct (String.eqb k' k); [easy|assumption].
Qed.

Lemma has_In k m : JSMap.has k m = true <-> In k (JSMap.keys m).
Proof.
  induction m as [|[k' v'] m IH]; simpl; [easy|].
  destruct (String.eqb_spec k' k) as [->|Hne]; [tauto|].
  rewrite IH. split; [auto|]. intros [E|Hin]; [contradiction|assumption].
Qed.

Lemma has_set_other k k' v m :
  k' <> k -> JSMap.has k' (JSMap.set k v m) = JSMap.has k' m.
Proof.
  intros Hne. induction m as [|[k0 v0] m IH]; simpl.
  - destruct (String.eqb_spec k k'); [congruence|reflexivity].
  - destruct (String.eqb_spec k0 k) as [->|Hk]; simpl.
    + destruct (String.eqb_spec k k'); [congruence|reflexivity].
    + now rewrite IH.
Qed.

Lemma get_set_other k k' v m :
  k' <> k -> JSMap.get k' (JSMap.set k v m) = JSMap.get k' m.
Proof.
  intros Hne. induction m as [|[k0 v0] m IH]; simpl.
  - destruct (String.eqb_spec k k'); [congruence|reflexivity].
  - destruct (String.eqb_spec k0 k) as [->|Hk]; simpl.
    + destruct (String.eqb_spec k k'); [congruence|reflexivity].
    + now rewrite IH.
Qed.

Lemma keys_set k v m :
  JSMap.keys (JSMap.set k v m) =
  if JSMap.has k m then JSMap.keys m else (JSMap.keys m ++ [k])%list.
Proof.
  unfold JSMap.keys. induction m as [|[k0 v0] m IH]; simpl; [reflexivity|].
  destruct (String.eqb_spec k0 k) as [->|Hk]; simpl; [reflexivity|].
  rewrite IH. now destruct (JSMap.has k m).
Qed.

Lemma keys_delete k m :
  JSMap.keys (JSMap.delete k m) =
  filter (fun k' => negb (String.eqb k' k)) (JSMap.keys m).
Proof.
  unfold JSMap.keys. induction m as [|[k0 v0] m IH]; simpl; [reflexivity|].
  destruct (String.eqb k0 k); simpl; now rewrite IH.
Qed.

Lemma size_delete_present k m :
  NoDup (JSMap.keys m) -> JSMap.has k m = true ->
  S (JSMap.size (JSMap.delete k m)) = JSMap.size m.
Proof.
  unfold JSMap.size. induction m as [|[k0 v0] m IH]; simpl; [easy|].
  intros Hnd Hh. inversion Hnd as [|? ? Hnin Hnd']; subst.
  destruct (String.eqb_spec k0 k) as [->|Hk].
  - f_equal. clear IH Hh Hnd.
    induction m as [|[k1 v1] m IH]; simpl; [reflexivity|].
    simpl in Hnin, Hnd'. inversion Hnd'; subst.
    destruct (String.eqb_spec k1 k) as [->|Hk1]; [tauto|].
    simpl. f_equal. apply IH; tauto.
  - simpl. f_equal. now apply IH.
Qed.

Lemma size_delete_absent k m :
  JSMap.has k m = false -> JSMap.delete k m = m.
Proof.
  induction m as [|[k0 v0] m IH]; simpl; [reflexivity|].
  destruct (String.eqb k0 k); [discriminate|]. intros Hh. now rewrite IH.
Qed.

End MemoryFacts.

(** X1.  On [memoryStorage] no call throws; [getItem] returns what the
    last [setItem] of the key wrote and nothing after [removeItem] of the
    key or [clear]; [setItem] and [removeItem] leave every other key as it
    was; and a cleared area has length 0. *)
Theorem memoryStorage_round_trip (m : JSMap.t) (k v : string) :
  (exists m',
     Storage.setItem k v m = Some m' /\
     Storage.getItem k m' = Some v /\
     forall k', k' <> k -> Storage.getItem k' m' = Storage.getItem k' m) /\
  (exists m',
     Storage.removeItem k m = Some m' /\
     Storage.getItem k m' = None /\
     forall k', k' <> k -> Storage.getItem k' m' = Storage.getItem k' m) /\
  (exists m',
     Storage.clear m = Some m' /\
     Storage.length m' = 0 /\
     forall k', Storage.getItem k' m' = None).
Proof.
  split; [|split]; eexists; (split; [reflexivity|]); simpl.
  - split.
    + now rewrite JSMapFacts.has_set, JSMapFacts.get_set.
    + intros k' Hne.
      now rewrite MemoryFacts.has_set_other, MemoryFacts.get_set_other.
  - split.
    + now rewrite JSMapFacts.has_delete.
    + intros k' Hne.
      now rewrite JSMapFacts.has_delete_other, JSMapFacts.get_delete_other.
  - split; reflexivity.
Qed.

(** X2.  On [memoryStorage], [key(i)] is null exactly from index [length]
    on, and the keys below that index are exactly those for which
    [getItem] is not null. *)
Theorem memoryStorage_enumeration (m : JSMap.t) :
  (forall i, Storage.key i m = None <-> Storage.length m <= i) /\
  (forall k,
     Storage.getItem k m <> None <->
     exists i, i < Storage.length m /\ Storage.key i m = Some k).
Proof.
  simpl. unfold JSMap.size. split.
  - intros i. rewrite nth_error_None. unfold JSMap.keys.
    now rewrite length_map.
  - intros k. split.
    + intros Hg. destruct (JSMap.has k m) eqn:Eh; [|easy].
      apply MemoryFacts.has_In in Eh.
      apply In_nth_error in Eh as [i Hi]. exists i. split; [|assumption].
      assert (i < List.length (JSMap.keys m)) as Hlt
        by (apply nth_error_Some; congruence).
      unfold JSMap.keys in Hlt. now rewrite length_map in Hlt.
    + intros (i & _ & Hi). apply nth_error_In in Hi.
      apply MemoryFacts.has_In in Hi. rewrite Hi.
      now apply MemoryFacts.has_get.
Qed.

(** X3.  The Map of [memoryStorage] keeps one binding per key and lists
    keys in the order of their first insertion: writing a key that is
    present changes neither the keys nor their order, writing a new key
    adds it at the end, and removing a key that is present takes exactly
    one binding away and keeps the order of the others. *)
Theorem memoryStorage_keeps_keys_distinct (m : JSMap.t) (k v : string) :
  NoDup (JSMap.keys m) ->
  NoDup (JSMap.keys (JSMap.set k v m)) /\
  NoDup (JSMap.keys (JSMap.delete k m)) /\
  JSMap.keys (JSMap.set k v m) =
    (if JSMap.has k m then JSMap.keys m else JSMap.keys m ++ [k])%list /\
  JSMap.keys (JSMap.delete k m) =
    filter (fun k' => negb (String.eqb k' k)) (JSMap.keys m) /\
  JSMap.size (JSMap.delete k m) =
    JSMap.size m - (if JSMap.has k m then 1 else 0).
Proof.
  intros Hnd. split; [|split; [|split; [|split]]].
  - rewrite MemoryFacts.keys_set. destruct (JSMap.has k m) eqn:Eh;
      [assumption|].
    apply NoDup_app; [assumption|repeat constructor; easy|].
    intros x Hx [<-|[]]. apply MemoryFacts.has_In in Hx. congruence.
  - rewrite MemoryFacts.keys_delete. now apply NoDup_filter.
  - apply MemoryFacts.keys_set.
  - apply MemoryFacts.keys_delete.
  - destruct (JSMap.has k m) eqn:Eh.
    + pose proof (MemoryFacts.size_delete_present k m Hnd Eh). lia.
    + rewrite MemoryFacts.size_delete_absent by assumption. lia.
Qed.

Lemma memoryStorage_keeps_keys_distinct_witness :
  JSMap.keys (JSMap.set "b" "2" [("a", "1")]) = ["a"; "b"] /\
  JSMap.size (JSMap.delete "a" [("a", "1")]) = 0.
Proof.
  assert (NoDup (JSMap.keys [("a", "1")])) as Hnd
    by (repeat constructor; simpl; tauto).
  pose proof (memoryStorage_keeps_keys_distinct [("a", "1")] "b" "2" Hnd)
    as (_ & _ & H3 & _).
  pose proof (memoryStorage_keeps_keys_distinct [("a", "1")] "a" "2" Hnd)
    as (_ & _ & _ & _ & H5).
  split; [exact H3|exact H5].
Defined.

(** ** The frame laws of the two Storage instances *)

#[export] Instance memoryStorage_frame_laws : StorageFrameLaws JSMap.t.
Proof.
  split; simpl.
  - intros k k' v b b' [= <-] Hne.
    now rewrite MemoryFacts.has_set_other, MemoryFacts.get_set_other.
  - intros b b' [= <-]. reflexivity.
  - intros k b b' [= <-]. reflexivity.
Qed.

#[export] Instance hostStorage_frame_laws : StorageFrameLaws Host.
Proof.
  split; simpl.
  - intros k k' v b b'. destruct (locked b); [discriminate|].
    destruct (Nat.leb _ _); [|discriminate]. intros [= <-] Hne. simpl.
    now rewrite MemoryFacts.has_set_other, MemoryFacts.get_set_other.
  - intros b b'. destruct (locked b); [discriminate|]. now intros [= <-].
  - intros k b b'. destruct (locked b); [discriminate|]. now intros [= <-].
Qed.

(** ** The store beyond its claims *)

Section StoreBehaviour.

Context {B : Type} `{StorageLaws B} `{!StorageFrameLaws B}.

Lemma reads_of_entry k (w w' : World B) :
  clock w' = clock w ->
  Storage.getItem k (backing w') = Storage.getItem k (backing w) ->
  reads k w' = reads k w.
Proof. intros Hc Hg. rewrite !reads_eq. cbv zeta. now rewrite Hc, Hg. Qed.

(** X4.  [clear()] publishes exactly one [Clear] whatever the backend
    does.  When the backend clears, [clear()] returns, [keys()] is then
    empty and every [get] absent, with no further event; when the backend
    throws, the exception reaches the caller and the entries stay. *)
Theorem clear_empties_store (w : World B) :
  let r := clear make w in
  published (snd r) = (published w ++ [ChClear])%list /\
  (Storage.clear (backing w) <> None ->
   fst r = Ret tt /\
   keys make (snd r) = (Ret [], snd r) /\
   forall k, get make k (snd r) = (Ret Undefined, snd r)) /\
  (Storage.clear (backing w) = None ->
   fst r = Throw /\ backing (snd r) = backing w).
Proof.
  cbn [clear keys get make]. rewrite api_clear_eq.
  destruct (Storage.clear (backing w)) as [b|] eqn:Ec.
  - split; [reflexivity|]. split; [|discriminate]. intros _.
    split; [reflexivity|]. cbn [snd]. split.
    + unfold api_keys. cbn [backing emitted].
      rewrite (length_clear _ _ Ec). cbn [keys_loop backing emitted].
      rewrite (length_clear _ _ Ec). reflexivity.
    + intros k. apply get_absent. cbn [backing emitted].
      now apply (getItem_clear k) in Ec.
  - split; [reflexivity|]. split; [easy|]. intros _. now split.
Qed.

(** X5.  [set(k, ...)] changes what [get] returns for no other key,
    whether the write succeeds or not. *)
Theorem set_is_isolated (w : World B) (k k' : string) (v : value)
  (opts : option SetOptions) :
  k' <> k ->
  reads k' (snd (set make k v opts w)) = reads k' w.
Proof.
  intros Hne. cbn [set make]. rewrite api_set_eq.
  destruct (JSON.stringify _) as [raw|]; [|reflexivity].
  destruct (Storage.setItem k raw (backing w)) as [b|] eqn:Eb; [|reflexivity].
  apply reads_of_entry; [reflexivity|]. cbn [snd backing emitted].
  now apply (getItem_setItem_other k k') in Eb.
Qed.

(** X6.  [set(k, undefined)] writes an envelope without a value: when the
    backend accepts it, a [Set{k}] is published, and yet [has(k)] is false
    right after. *)
Theorem set_undefined_reads_absent (w : World B) (k : string)
  (opts : option SetOptions) :
  (forall raw,
     JSON.stringify (payload_of w Undefined opts) = Some raw ->
     Storage.setItem k raw (backing w) <> None) ->
  let w1 := snd (set make k Undefined opts w) in
  published w1 = (published w ++ [ChSet k])%list /\
  fst (has make k w1) = Ret false.
Proof.
  intros Hw. cbn [set has make]. rewrite api_set_eq.
  set (e := option_map (Z.add (clock w)) (truthy_ttl opts)).
  set (kept := Obj match e with
                   | Some n => [("e", Num n)]
                   | None => []
                   end).
  assert (JSON.stringify (payload_of w Undefined opts) = JSON.stringify kept)
    as Es by (unfold payload_of; fold e; unfold kept; now destruct e).
  destruct (safeParse_stringify kept) as (raw & Er & Hp);
    [unfold kept; now destruct e|].
  rewrite Es, Er. rewrite Es in Hw. specialize (Hw raw Er).
  destruct (Storage.setItem k raw (backing w)) as [b|] eqn:Eb; [|easy].
  apply getItem_setItem in Eb. cbn [snd]. split; [reflexivity|].
  rewrite api_has_eq, api_get_eq. cbn [backing emitted]. rewrite Eb, Hp.
  cbv zeta. destruct (is_expired _ kept); cbn [fst]; [reflexivity|].
  unfold kept. now destruct e.
Qed.

(** X7.  An entry that parses to anything but an object is not an
    envelope: [get] returns absent for it and changes nothing. *)
Theorem get_ignores_foreign_entries (w : World B) (k raw : string)
  (parsed : value) :
  Storage.getItem k (backing w) = Some raw ->
  JSON.parse raw = Some parsed ->
  (forall members, parsed <> Obj members) ->
  get make k w = (Ret Undefined, w).
Proof.
  intros Hg Hp Hno. cbn [get make]. rewrite api_get_eq, Hg.
  assert (safeParse (Some raw) = parsed \/ safeParse (Some raw) = Undefined)
    as [-> | ->].
  { unfold safeParse. rewrite Hp. destruct (String.eqb raw ""); auto. }
  - assert (prop "e" parsed = Undefined /\ prop "v" parsed = Undefined)
      as [He Hv]
      by (destruct parsed; try (now split); now elim (Hno members)).
    cbv zeta. unfold is_expired. rewrite He, Hv. cbn [truthy].
    rewrite andb_false_r. cbn [andb]. destruct (truthy parsed); reflexivity.
  - reflexivity.
Qed.

(** X9.  Reading does not show: after [get], [has] or [keys], which may
    purge expired entries, every [get] returns what it would have returned
    before, the clock is as it was and no [Clear] was published. *)
Theorem reads_are_observationally_pure (w : World B) (k k0 : string) :
  (reads k (snd (get make k0 w)) = reads k w /\
   cleared (snd (get make k0 w)) = cleared w) /\
  (reads k (snd (has make k0 w)) = reads k w /\
   cleared (snd (has make k0 w)) = cleared w) /\
  (reads k (snd (keys make w)) = reads k w /\
   cleared (snd (keys make w)) = cleared w).
Proof.
  cbn [get has keys make].
  destruct (framed_api_get k k0 w) as (_ & Hc1 & Hr1).
  destruct (framed_api_has k k0 w) as (_ & Hc2 & Hr2).
  destruct (framed_api_keys k w) as (_ & Hc3 & Hr3).
  auto.
Qed.

End StoreBehaviour.

(** ** Properties that every call keeps *)

Section Invariants.

Context {B : Type} `{Storage.Storage B}.
Variable I : World B -> Prop.
Variable ok : Fn -> bool.
Hypothesis HI : Invariant I ok.
Hypothesis ok_scoped : forall c p fn, ok fn = true -> ok (Scoped c p fn) = true.

Lemma preserves_ret A (a : A) : Preserves I (ret a : M B A).
Proof. intros w Hw. exact Hw. Qed.

Lemma preserves_bind A C (m : M B A) (f : A -> M B C) :
  Preserves I m -> (forall a, Preserves I (f a)) -> Preserves I (bind m f).
Proof.
  intros Hm Hf w Hw. unfold bind. specialize (Hm w Hw).
  destruct (m w) as [[a | |] w']; cbn [snd] in *; try assumption.
  now apply Hf.
Qed.

Lemma preserves_for_each A (l : list A) (body : A -> M B unit) :
  (forall a, Preserves I (body a)) -> Preserves I (for_each l body).
Proof.
  intros Hb. induction l as [|a l IH]; cbn [for_each].
  - apply preserves_ret.
  - apply preserves_bind; auto.
Qed.

Lemma preserves_api_set k v o : Preserves I (api_set k v o).
Proof.
  intros w Hw. rewrite api_set_eq.
  destruct (JSON.stringify _); [|assumption].
  destruct (Storage.setItem _ _ _); [|assumption].
  now apply (inv_emitted I ok HI).
Qed.

Lemma preserves_api_get k : Preserves I (api_get k).
Proof.
  intros w Hw. rewrite api_get_eq. cbv zeta.
  destruct (is_expired _ _); [|assumption].
  now apply (inv_emitted I ok HI).
Qed.

Lemma preserves_api_has k : Preserves I (api_has k).
Proof.
  apply preserves_bind; [apply preserves_api_get|].
  intros v. apply preserves_ret.
Qed.

Lemma preserves_api_remove k : Preserves I (api_remove k).
Proof.
  intros w Hw. rewrite api_remove_eq.
  destruct (Storage.removeItem _ _); now apply (inv_emitted I ok HI).
Qed.

Lemma preserves_api_clear : Preserves I api_clear.
Proof.
  intros w Hw. rewrite api_clear_eq.
  destruct (Storage.clear _); now apply (inv_emitted I ok HI).
Qed.

Lemma preserves_keys_loop fuel :
  forall i ks, Preserves I (keys_loop fuel i ks).
Proof.
  induction fuel as [|fuel IH]; intros i ks w Hw; cbn [keys_loop].
  - now destruct (Nat.ltb _ _).
  - destruct (Nat.ltb _ _); [|assumption].
    destruct (Storage.key i (backing w)) as [k|]; [|now apply IH].
    destruct (String.eqb k ""); [now apply IH|].
    apply (preserves_bind _ _ (api_has k)); [apply preserves_api_has| |exact Hw].
    intros b. apply IH.
Qed.

Lemma preserves_api_keys : Preserves I api_keys.
Proof. intros w Hw. unfold api_keys. now apply preserves_keys_loop. Qed.

Lemma preserves_on fn : ok fn = true -> Preserves I (on fn).
Proof. intros Hfn w Hw. now apply (inv_add I ok HI). Qed.

Lemma keeps_make : KeepsStore I ok make.
Proof.
  split; cbn [set get remove clear has keys subscribe make].
  - apply preserves_api_set.
  - apply preserves_api_get.
  - apply preserves_api_remove.
  - apply preserves_api_clear.
  - apply preserves_api_has.
  - apply preserves_api_keys.
  - apply preserves_on.
Qed.

Lemma keeps_withPrefix (s : Store B) prefix :
  KeepsStore I ok s -> KeepsStore I ok (withPrefix s prefix).
Proof.
  intros Hs. split; cbn [set get remove clear has keys subscribe withPrefix].
  - intros. apply Hs.
  - intros. apply Hs.
  - intros. apply Hs.
  - apply preserves_bind; [apply Hs|]. intros ks. apply preserves_for_each.
    intros k. destruct (startsWith _ _); [apply Hs|apply preserves_ret].
  - intros. apply Hs.
  - apply preserves_bind; [apply Hs|]. intros ks. apply preserves_ret.
  - intros fn Hfn. apply preserves_bind.
    + intros w Hw. now apply (inv_closure I ok HI).
    + intros c. apply Hs. now apply ok_scoped.
Qed.

Lemma keeps_target prefixes : KeepsStore I ok (target prefixes).
Proof.
  unfold target. generalize keeps_make. generalize (make : Store B) as s.
  induction prefixes as [|p ps IH]; intros s Hs; cbn [fold_left].
  - exact Hs.
  - apply IH. now apply keeps_withPrefix.
Qed.

Lemma keeps_step (c : Call) (w : World B) :
  allowed ok c = true -> I w -> I (step c w).
Proof.
  intros Hc Hw. destruct c as [ps op | e | ms]; cbn [step].
  - pose proof (keeps_target ps) as Hs.
    destruct op as [k v o | k | k | | k | | fn | fn]; cbn [invoke allowed] in *;
      try (apply Hs; assumption);
      try (apply preserves_bind;
           [apply Hs; assumption | intros; apply preserves_ret | assumption]).
    cbn [snd]. now apply (inv_delete I ok HI).
  - unfold storage_listener.
    destruct (same_area e); cbn [negb]; [|assumption].
    destruct (ev_key e); [destruct (newValue e)|];
      now apply (inv_emitted I ok HI _ (backing w)).
  - now apply (inv_clock I ok HI).
Qed.

Lemma keeps_run (cs : list Call) :
  forall w, forallb (allowed ok) cs = true -> I w -> I (run cs w).
Proof.
  induction cs as [|c cs IH]; intros w Hcs Hw; [exact Hw|].
  cbn [forallb] in Hcs. apply andb_true_iff in Hcs as [Hc Hcs].
  change (run (c :: cs) w) with (run cs (step c w)).
  apply IH; [assumption|]. now apply keeps_step.
Qed.

End Invariants.

(** ** The listeners of the emitter *)

Lemma Set_add_NoDup fn (l : list Fn) : NoDup l -> NoDup (Set_add fn l).
Proof.
  intros Hl. unfold Set_add.
  destruct (existsb (Fn_eqb fn) l) eqn:E; [assumption|].
  apply NoDup_app; [assumption|repeat constructor; easy|].
  intros g Hin [<-|[]].
  assert (existsb (Fn_eqb fn) l = true) as E'
    by (apply existsb_exists; exists fn; split;
        [assumption|apply Fn_eqb_refl]).
  congruence.
Qed.

Lemma Set_add_again fn (l : list Fn) :
  Set_add fn (Set_add fn l) = Set_add fn l.
Proof.
  unfold Set_add at 2. destruct (existsb (Fn_eqb fn) l) eqn:E.
  - unfold Set_add. now rewrite E.
  - unfold Set_add. rewrite existsb_app, E. simpl.
    now rewrite Fn_eqb_refl.
Qed.

Lemma deliveries_after_delete id fn c (l : list Fn) :
  reaches id fn = false ->
  filter (fun d => Nat.eqb (fst d) id)
    (flat_map (fun g => call g c) (Set_delete fn l)) =
  filter (fun d => Nat.eqb (fst d) id) (flat_map (fun g => call g c) l).
Proof.
  intros Hfn. unfold Set_delete.
  induction l as [|g l IH]; simpl; [reflexivity|].
  destruct (Fn_eqb fn g) eqn:E; simpl; rewrite !filter_app, IH.
  - apply Fn_eqb_eq in E. subst g. now rewrite call_unreached.
  - reflexivity.
Qed.

Lemma heard_app fn (evs evs' : list Change) :
  heard fn (evs ++ evs') = (heard fn evs ++ heard fn evs')%list.
Proof. unfold heard. apply flat_map_app. Qed.

Lemma heard_cons fn c (evs : list Change) :
  heard fn (c :: evs) = (map snd (call fn c) ++ heard fn evs)%list.
Proof. reflexivity. Qed.

Lemma heard_User id (evs : list Change) : heard (User id) evs = evs.
Proof.
  induction evs as [|c evs IH]; [reflexivity|].
  rewrite heard_cons, IH. reflexivity.
Qed.

Lemma heard_Scoped cl p id (evs : list Change) :
  heard (Scoped cl p (User id)) evs = flat_map (scoped_view p) evs.
Proof.
  induction evs as [|c evs IH]; [reflexivity|].
  rewrite heard_cons, IH. cbn [flat_map]. f_equal.
  destruct c as [k | k |]; simpl; try destruct (startsWith _ _); reflexivity.
Qed.

Lemma call_only_reached id fn :
  reaches id fn = true ->
  (forall id', reaches id' fn = true -> id' = id) ->
  forall c, filter (fun d => Nat.eqb (fst d) id) (call fn c) = call fn c.
Proof.
  induction fn as [a | cl p fn IH]; simpl; intros Hr Hu c.
  - apply Nat.eqb_eq in Hr. subst a. now rewrite Nat.eqb_refl.
  - destruct c as [k | k |]; try destruct (startsWith _ _); auto.
Qed.

Section Listeners.

Context {B : Type} `{Storage.Storage B}.

Lemma distinct_invariant :
  Invariant (fun w : World B => NoDup (fns w)) (fun _ => true).
Proof.
  split; cbn [fns with_backing with_clock with_fns emitted]; auto.
  - intros fn w _. apply Set_add_NoDup.
  - intros fn w _ Hw. now apply NoDup_filter.
Qed.

Lemma tracking_invariant id fn0 P0 R0 :
  Invariant (tracking id fn0 P0 R0 : World B -> Prop)
    (fun fn => negb (reaches id fn)).
Proof.
  split; try (intros; assumption).
  - intros c b w (Hs & evs & Hp & Hr). split; [exact Hs|].
    exists (evs ++ [c])%list. cbn [published emitted]. split.
    + now rewrite Hp, app_assoc.
    + unfold received in *. cbn [delivered emitted].
      rewrite filter_app, map_app, Hr, (Hs c), heard_app.
      unfold heard at 3. simpl. now rewrite app_nil_r, app_assoc.
  - intros fn w Hfn (Hs & Htr). apply negb_true_iff in Hfn.
    split; [|exact Htr]. intros c. cbn [fns with_fns].
    unfold Set_add. destruct (existsb _ _); [apply Hs|].
    rewrite flat_map_app, filter_app, (Hs c). simpl.
    now rewrite app_nil_r, call_unreached, app_nil_r.
  - intros fn w Hfn (Hs & Htr). apply negb_true_iff in Hfn.
    split; [|exact Htr]. intros c. cbn [fns with_fns].
    rewrite deliveries_after_delete by assumption. apply Hs.
Qed.

(** X11.  The emitter holds each function once: registering a function
    that is registered changes nothing, and whatever clients and the host
    do, the list of listeners stays free of duplicates. *)
Theorem listeners_stay_distinct (w : World B) (fn : Fn) (cs : list Call) :
  NoDup (fns w) ->
  NoDup (fns (run cs w)) /\
  fns (snd (subscribe make fn (snd (subscribe make fn w)))) =
  fns (snd (subscribe make fn w)).
Proof.
  intros Hw. split.
  - apply (keeps_run _ (fun _ => true) distinct_invariant); auto.
    apply forallb_forall. intros c _.
    destruct c as [ps [] | |]; reflexivity.
  - cbn [subscribe make snd fns with_fns api_subscribe on].
    apply Set_add_again.
Qed.

(** The listener registered last in a world where nothing reached its
    callback is the one way to it. *)
Lemma sole_after_add id fn0 (w : World B) :
  silent id w ->
  reaches id fn0 = true ->
  (forall id', reaches id' fn0 = true -> id' = id) ->
  Set_add fn0 (fns w) = (fns w ++ [fn0])%list /\
  sole id fn0 (with_fns (fns w ++ [fn0]) w).
Proof.
  intros Hs Hr Hu. split.
  - unfold Set_add. destruct (existsb (Fn_eqb fn0) (fns w)) eqn:E;
      [|reflexivity].
    apply existsb_exists in E as (g & Hin & Hg). apply Fn_eqb_eq in Hg.
    subst g. unfold silent in Hs. rewrite forallb_forall in Hs.
    specialize (Hs _ Hin). now rewrite Hr in Hs.
  - intros c. cbn [fns with_fns].
    rewrite flat_map_app, filter_app, (deliveries_unreached id c _ Hs).
    simpl. rewrite app_nil_r. now apply call_only_reached.
Qed.

(** X12.  A callback subscribed to the store is called with every event
    published from then on, once each and in the order of publication,
    whether the event comes from a call on the store, from a namespace or
    from the host, for as long as it is neither subscribed again nor
    unsubscribed.  The callback is new to the store. *)
Theorem subscribed_listener_hears_every_event (w : World B) (id : nat)
  (u : Unsubscribe B) (w1 : World B) (cs : list Call) :
  silent id w ->
  subscribe make (User id) w = (Ret u, w1) ->
  forallb (allowed (fun fn => negb (reaches id fn))) cs = true ->
  exists evs,
    published (run cs w1) = (published w ++ evs)%list /\
    received id (run cs w1) = (received id w ++ evs)%list.
Proof.
  intros Hs Hsub Hcs.
  cbn [subscribe make] in Hsub. unfold api_subscribe, on in Hsub.
  injection Hsub as _ <-.
  destruct (sole_after_add id (User id) w Hs) as [-> Hsole].
  { simpl. apply Nat.eqb_refl. }
  { simpl. intros id' E. now apply Nat.eqb_eq in E. }
  assert (tracking id (User id) (published w) (received id w)
            (run cs (with_fns (fns w ++ [User id]) w)))
    as (_ & evs & Hp & Hr).
  { apply (keeps_run _ _ (tracking_invariant id _ _ _)); [|assumption|].
    - intros c p fn E. exact E.
    - split; [exact Hsole|]. exists []. now rewrite !app_nil_r. }
  exists evs. now rewrite heard_User in Hr.
Qed.

End Listeners.

(** ** Qualified keys *)

Module KeyFacts.

Lemma prefix_nil s : String.prefix "" s = true.
Proof. now destruct s. Qed.

Lemma prefix_cons a s c t :
  String.prefix (String a s) (String c t) =
  Ascii.eqb a c && String.prefix s t.
Proof.
  simpl. destruct (ascii_dec a c) as [->|Hne].
  - now rewrite Ascii.eqb_refl.
  - apply Ascii.eqb_neq in Hne. now rewrite Hne.
Qed.

Lemma prefix_app a b : String.prefix a (a ++ b) = true.
Proof.
  induction a as [|c a IH]; simpl append; [apply prefix_nil|].
  now rewrite prefix_cons, Ascii.eqb_refl, IH.
Qed.

Lemma slice_app a b : slice (String.length a) (a ++ b) = b.
Proof. induction a as [|c a IH]; simpl; [now destruct b|assumption]. Qed.

Lemma slice_0 s : slice 0 s = s.
Proof. now destruct s. Qed.

Lemma slice_nil n : slice n "" = "".
Proof. now destruct n. Qed.

Lemma slice_add n m s : slice (n + m) s = slice m (slice n s).
Proof.
  revert s. induction n as [|n IH]; intros s; simpl.
  - reflexivity.
  - destruct s as [|c s]; [now rewrite slice_nil|]. apply IH.
Qed.

Lemma prefix_slice a s :
  String.prefix a s = true -> a ++ slice (String.length a) s = s.
Proof.
  revert s. induction a as [|c a IH]; intros s; simpl append.
  - intros _. simpl. apply slice_0.
  - destruct s as [|d s]; [discriminate|]. rewrite prefix_cons.
    intros E. apply andb_true_iff in E as [E1 E2].
    apply Ascii.eqb_eq in E1. subst d. simpl. f_equal. now apply IH.
Qed.

Lemma prefix_split a b s :
  String.prefix (a ++ b) s =
  String.prefix a s && String.prefix b (slice (String.length a) s).
Proof.
  revert s. induction a as [|c a IH]; intros s; simpl append.
  - simpl. now rewrite prefix_nil.
  - destruct s as [|d s].
    + simpl. reflexivity.
    + rewrite !prefix_cons, IH. simpl. now rewrite andb_assoc.
Qed.

Lemma length_delimited p : String.length (p ++ ":") = String.length p + 1.
Proof. rewrite JSONFacts.length_append. reflexivity. Qed.

Lemma delimited_app p k : (p ++ ":") ++ k = p ++ ":" ++ k.
Proof. now rewrite JSONFacts.append_assoc. Qed.

(** Qualifying a key and stripping the prefix gives the key back. *)
Lemma qualified_round_trip p k :
  startsWith (p ++ ":" ++ k) (p ++ ":") = true /\
  slice (String.length p + 1) (p ++ ":" ++ k) = k.
Proof.
  unfold startsWith. rewrite <- delimited_app, <- length_delimited.
  split; [apply prefix_app|apply slice_app].
Qed.

(** A key under the prefix is its stripped form, qualified. *)
Lemma stripped_round_trip p s :
  startsWith s (p ++ ":") = true ->
  p ++ ":" ++ slice (String.length p + 1) s = s.
Proof.
  unfold startsWith. intros E. apply prefix_slice in E.
  now rewrite length_delimited, delimited_app in E.
Qed.

Lemma nested_prefix p q k :
  p ++ ":" ++ q ++ ":" ++ k = (p ++ ":" ++ q) ++ ":" ++ k.
Proof. rewrite JSONFacts.append_assoc. reflexivity. Qed.

Lemma nested_startsWith p q s :
  startsWith s ((p ++ ":" ++ q) ++ ":") =
  startsWith s (p ++ ":") &&
  startsWith (slice (String.length p + 1) s) (q ++ ":").
Proof.
  unfold startsWith.
  replace ((p ++ ":" ++ q) ++ ":") with ((p ++ ":") ++ (q ++ ":"))
    by (now rewrite !JSONFacts.append_assoc).
  now rewrite prefix_split, length_delimited.
Qed.

Lemma nested_slice p q s :
  slice (String.length (p ++ ":" ++ q) + 1) s =
  slice (String.length q + 1) (slice (String.length p + 1) s).
Proof.
  rewrite <- slice_add. f_equal.
  rewrite JSONFacts.length_append. simpl. lia.
Qed.

End KeyFacts.

Section NamespacedStore.

Context {B : Type} `{StorageLaws B}.

(** X13.  A callback subscribed through a namespace is called with what
    the namespace shows of every event published from then on, in order:
    [Clear] as it is, the events of keys under the prefix with the prefix
    stripped, and nothing for other keys; the event of a qualified key
    [p:k] reaches it as the event of [k].  The callback is new to the
    store, and is neither subscribed again nor unsubscribed. *)
Theorem namespaced_listener_hears_its_namespace (w : World B) (id : nat)
  (p : string) (u : Unsubscribe B) (w1 : World B) (cs : list Call) :
  silent id w ->
  subscribe (withPrefix make p) (User id) w = (Ret u, w1) ->
  forallb (allowed (fun fn => negb (reaches id fn))) cs = true ->
  (exists evs,
     published (run cs w1) = (published w ++ evs)%list /\
     received id (run cs w1) =
       (received id w ++ flat_map (scoped_view p) evs)%list) /\
  (forall k,
     scoped_view p (ChSet (p ++ ":" ++ k)) = [ChSet k] /\
     scoped_view p (ChRemove (p ++ ":" ++ k)) = [ChRemove k]).
Proof.
  intros Hs Hsub Hcs. split.
  - cbn [subscribe withPrefix make] in Hsub.
    unfold bind, fresh_closure, api_subscribe, on in Hsub.
    injection Hsub as _ <-.
    set (w' := mkWorld (backing w) (fns w) (clock w) (published w)
                 (delivered w) (S (closures w))).
    set (fn0 := Scoped (closures w) p (User id)).
    destruct (sole_after_add id fn0 w' Hs) as [E Hsole].
    { simpl. apply Nat.eqb_refl. }
    { simpl. intros id' E. now apply Nat.eqb_eq in E. }
    change (fns w') with (fns w) in E, Hsole. rewrite E.
    assert (tracking id fn0 (published w) (received id w)
              (run cs (with_fns (fns w ++ [fn0]) w')))
      as (_ & evs & Hp & Hr).
    { apply (keeps_run _ _ (tracking_invariant id _ _ _)); [|assumption|].
      - intros c q fn Efn. exact Efn.
      - split; [exact Hsole|]. exists []. now rewrite !app_nil_r. }
    exists evs. unfold fn0 in Hr. now rewrite heard_Scoped in Hr.
  - intros k. destruct (KeyFacts.qualified_round_trip p k) as [E1 E2].
    unfold scoped_view. now rewrite E1, E2.
Qed.

(** X14.  Every key that the namespaced [keys()] lists answers true to
    the namespaced [has] after the scan. *)
Theorem namespaced_keys_are_live (w : World B) (p : string)
  (ks : list string) (w' : World B) :
  keys (withPrefix make p) w = (Ret ks, w') ->
  forall k, In k ks -> has (withPrefix make p) k w' = (Ret true, w').
Proof.
  cbn [keys has withPrefix make]. unfold bind, api_keys.
  destruct (keys_loop _ 0 [] w) as [[ks0 | |] w0] eqn:Ek; try discriminate.
  unfold ret. intros [= <- <-] k Hin.
  apply in_map_iff in Hin as (k0 & <- & Hin).
  apply filter_In in Hin as [Hin Hsw].
  rewrite (KeyFacts.stripped_round_trip p k0 Hsw).
  apply api_has_live.
  apply (keys_loop_sound _ _ _ _ _ _ Ek); [intros k' []|assumption].
Qed.

(** X19.  On a backend whose removal does not throw, the namespaced
    [clear()] returns, and every key under the prefix that the store's
    [keys()] lists is afterwards gone from the backend and reads absent. *)
Theorem namespaced_clear_removes_listed_keys (w : World B) (p : string)
  (ks : list string) (w1 : World B) :
  (forall k b, Storage.removeItem k b <> None) ->
  keys make w = (Ret ks, w1) ->
  let r := clear (withPrefix make p) w in
  fst r = Ret tt /\
  forall k,
    In k ks -> startsWith k (p ++ ":") = true ->
    Storage.getItem k (backing (snd r)) = None /\
    reads k (snd r) = Undefined.
Proof.
  intros Hrm Hk. cbn [keys clear remove withPrefix make] in *. cbv zeta.
  assert (forall body : list string -> M B unit,
            bind api_keys body w = body ks w1) as ->
    by (intros body; unfold bind; now rewrite Hk).
  assert (forall k0 (w0 : World B),
            exists w2,
              api_remove k0 w0 = (Ret tt, w2) /\
              Storage.getItem k0 (backing w2) = None /\
              forall k, Storage.getItem k (backing w0) = None ->
                        Storage.getItem k (backing w2) = None)
    as Hstep.
  { intros k0 w0. rewrite api_remove_eq.
    destruct (Storage.removeItem k0 (backing w0)) as [b|] eqn:Er;
      [|now elim (Hrm k0 (backing w0))].
    eexists. split; [reflexivity|]. cbn [backing emitted]. split.
    - now apply getItem_removeItem in Er.
    - intros k Hg. destruct (String.eqb_spec k k0) as [->|Hne].
      + now apply getItem_removeItem in Er.
      + now rewrite (getItem_removeItem_other _ _ _ _ Er Hne). }
  assert (forall l (w0 : World B),
            let r := for_each l
                       (fun k : string =>
                          if startsWith k (p ++ ":")
                          then api_remove k
                          else (ret tt : M B unit)) w0 in
            fst r = Ret tt /\
            (forall k, Storage.getItem k (backing w0) = None ->
                       Storage.getItem k (backing (snd r)) = None) /\
            (forall k, In k l -> startsWith k (p ++ ":") = true ->
                       Storage.getItem k (backing (snd r)) = None))
    as Hloop.
  { induction l as [|k0 l IH]; intros w0; cbn [for_each].
    - split; [reflexivity|]. split; [auto|]. intros k [].
    - cbv zeta. unfold bind.
      destruct (startsWith k0 (p ++ ":")) eqn:Esw.
      + destruct (Hstep k0 w0) as (w2 & -> & Hk0 & Hkeep0).
        destruct (IH w2) as (Hret & Hkeep & Hgone).
        split; [assumption|]. split; [auto|].
        intros k [<- | Hin] Hpre; auto.
      + cbn [ret]. destruct (IH w0) as (Hret & Hkeep & Hgone).
        split; [assumption|]. split; [assumption|].
        intros k [<- | Hin] Hpre; [congruence|auto]. }
  pose proof (Hloop ks w1) as Hl. cbv zeta in Hl |- *.
  destruct Hl as (Hret & _ & Hgone).
  split; [exact Hret|]. intros k Hin Hpre.
  specialize (Hgone k Hin Hpre). split; [exact Hgone|].
  rewrite reads_eq. cbv zeta. rewrite Hgone. reflexivity.
Qed.

End NamespacedStore.

(** ** Nested namespaces *)

Section NestedNamespaces.

Context {B : Type} `{Storage.Storage B}.

Lemma nested_listing p q (l : list string) :
  map (slice (String.length q + 1))
    (filter (fun k => startsWith k (q ++ ":"))
       (map (slice (String.length p + 1))
          (filter (fun k => startsWith k (p ++ ":")) l))) =
  map (slice (String.length (p ++ ":" ++ q) + 1))
    (filter (fun k => startsWith k ((p ++ ":" ++ q) ++ ":")) l).
Proof.
  induction l as [|k l IH]; [reflexivity|]. cbn [filter].
  rewrite KeyFacts.nested_startsWith.
  destruct (startsWith k (p ++ ":")); cbn [andb map filter]; [|exact IH].
  destruct (startsWith _ (q ++ ":")); cbn [map]; [|exact IH].
  now rewrite IH, KeyFacts.nested_slice.
Qed.

Lemma nested_sweep (s : Store B) p q (l : list string) :
  forall w,
    for_each
      (map (slice (String.length p + 1))
         (filter (fun k => startsWith k (p ++ ":")) l))
      (fun k =>
         if startsWith k (q ++ ":")
         then remove s (p ++ ":" ++ k)
         else ret tt) w =
    for_each l
      (fun k =>
         if startsWith k ((p ++ ":" ++ q) ++ ":")
         then remove s k
         else ret tt) w.
Proof.
  induction l as [|k l IH]; intros w; [reflexivity|].
  cbn [filter for_each]. rewrite KeyFacts.nested_startsWith.
  destruct (startsWith k (p ++ ":")) eqn:Ep; cbn [andb map for_each].
  - rewrite (KeyFacts.stripped_round_trip p k Ep).
    unfold bind.
    destruct ((if startsWith _ (q ++ ":") then remove s k else ret tt) w)
      as [[[] | |] w']; try reflexivity. apply IH.
  - unfold bind, ret. apply IH.
Qed.

(** X15.  Namespaces nest: the namespace [q] of the namespace [p] of a
    store behaves, for [set], [get], [remove], [has], [keys] and [clear],
    as the namespace [p:q] of the store. *)
Theorem nested_prefixes_compose (s : Store B) (p q : string) (w : World B) :
  let nested := withPrefix (withPrefix s p) q in
  let single := withPrefix s (p ++ ":" ++ q) in
  (forall k v o, set nested k v o w = set single k v o w) /\
  (forall k, get nested k w = get single k w) /\
  (forall k, remove nested k w = remove single k w) /\
  (forall k, has nested k w = has single k w) /\
  keys nested w = keys single w /\
  clear nested w = clear single w.
Proof.
  cbv zeta. cbn [set get remove has keys clear withPrefix].
  repeat split; intros; try (now rewrite KeyFacts.nested_prefix).
  - unfold bind. destruct (keys s w) as [[ks | |] w']; try reflexivity.
    unfold ret. now rewrite nested_listing.
  - unfold bind. destruct (keys s w) as [[ks | |] w']; try reflexivity.
    unfold ret. apply nested_sweep.
Qed.

End NestedNamespaces.

(** ** What [keys] lists when nothing is expired *)

Section CompleteEnumeration.

Context {B : Type} `{Storage.Storage B}.

Lemma api_has_unexpired k (w : World B) :
  is_expired (clock w) (safeParse (Storage.getItem k (backing w))) = false ->
  api_has k w =
  (Ret (live_entry (clock w) (Storage.getItem k (backing w))), w).
Proof.
  intros He. rewrite api_has_eq, api_get_eq. cbv zeta.
  unfold live_entry. cbv zeta. rewrite He. reflexivity.
Qed.

Lemma keys_loop_unexpired (w : World B) :
  (forall k,
     is_expired (clock w) (safeParse (Storage.getItem k (backing w))) =
     false) ->
  forall fuel i ks,
    Storage.length (backing w) - i <= fuel ->
    keys_loop fuel i ks w =
    (Ret (ks ++
          filter
            (fun k =>
               negb (String.eqb k "") &&
               live_entry (clock w) (Storage.getItem k (backing w)))
            (flat_map
               (fun i =>
                  match Storage.key i (backing w) with
                  | Some k => [k]
                  | None => []
                  end)
               (seq i (Storage.length (backing w) - i))))%list,
     w).
Proof.
  intros Hno. induction fuel as [|fuel IH]; intros i ks Hf; cbn [keys_loop].
  - destruct (Nat.ltb_spec i (Storage.length (backing w))); [lia|].
    replace (Storage.length (backing w) - i) with 0 by lia.
    simpl. now rewrite app_nil_r.
  - destruct (Nat.ltb_spec i (Storage.length (backing w))) as [Hlt|Hge].
    + replace (Storage.length (backing w) - i)
        with (S (Storage.length (backing w) - S i)) by lia.
      cbn [seq flat_map].
      destruct (Storage.key i (backing w)) as [k|].
      * cbn [app filter]. destruct (String.eqb k "") eqn:Ek; cbn [negb andb].
        -- apply IH. lia.
        -- unfold bind. rewrite (api_has_unexpired k w (Hno k)).
           rewrite IH by lia.
           destruct (live_entry _ _); [|reflexivity].
           now rewrite <- app_assoc.
      * cbn [app]. apply IH. lia.
    + replace (Storage.length (backing w) - i) with 0 by lia.
      simpl. now rewrite app_nil_r.
Qed.

(** X20.  When no entry of the backend is expired, [keys()] changes
    nothing and lists, in index order, every key of the backend that is
    not empty and for which [has] is true. *)
Theorem keys_complete_without_expired_entries (w : World B) :
  (forall k,
     is_expired (clock w) (safeParse (Storage.getItem k (backing w))) =
     false) ->
  keys make w =
  (Ret (filter
          (fun k =>
             negb (String.eqb k "") &&
             live_entry (clock w) (Storage.getItem k (backing w)))
          (enumerate (backing w))),
   w) /\
  forall k, has make k w =
            (Ret (live_entry (clock w) (Storage.getItem k (backing w))), w).
Proof.
  intros Hno. split.
  - cbn [keys make]. unfold api_keys, enumerate.
    rewrite (keys_loop_unexpired w Hno) by lia.
    now rewrite Nat.sub_0_r.
  - intros k. cbn [has make]. now apply api_has_unexpired.
Qed.

End CompleteEnumeration.

Lemma keys_complete_without_expired_entries_witness :
  fst (keys make one_key) = Ret ["k"].
Proof.
  assert (forall k,
            is_expired (clock one_key)
              (safeParse (Storage.getItem k (backing one_key))) = false)
    as Hno.
  { intros k.
    change (backing one_key) with [("k", envelope_text (Num 1) None)].
    cbn [Storage.getItem memoryStorage JSMap.has JSMap.get].
    destruct (String.eqb "k" k); reflexivity. }
  rewrite (proj1 (keys_complete_without_expired_entries one_key Hno)).
  reflexivity.
Defined.

(** ** The properties above, on the in-memory store *)

Lemma memoryStorage_round_trip_witness :
  exists m',
    Storage.setItem "b" "2" [("a", "1")] = Some m' /\
    Storage.getItem "a" m' = Storage.getItem "a" [("a", "1")].
Proof.
  destruct (memoryStorage_round_trip [("a", "1")] "b" "2")
    as [(m' & Hs & _ & Ho) _].
  exists m'. split; [exact Hs|]. apply Ho. discriminate.
Defined.

Lemma memoryStorage_enumeration_witness :
  Storage.key 1 [("a", "1")] = None.
Proof.
  apply (proj1 (memoryStorage_enumeration [("a", "1")])). simpl. lia.
Defined.

Lemma clear_empties_store_witness :
  keys make (snd (clear make one_key)) = (Ret [], snd (clear make one_key)).
Proof.
  assert (Storage.clear (backing one_key) <> None) as Hc by discriminate.
  exact (proj1 (proj2 (proj1 (proj2 (clear_empties_store one_key)) Hc))).
Defined.

Lemma set_is_isolated_witness :
  reads "k" (snd (set make "other" (Num 2) None one_key)) = reads "k" one_key.
Proof.
  apply (set_is_isolated one_key "other" "k" (Num 2) None). discriminate.
Defined.

Lemma set_undefined_reads_absent_witness :
  fst (has make "k" (snd (set make "k" Undefined None (fresh 0)))) =
  Ret false.
Proof.
  assert (forall raw,
            JSON.stringify (payload_of (fresh 0) Undefined None) = Some raw ->
            Storage.setItem "k" raw (backing (fresh 0)) <> None)
    as Hw by (intros raw _; discriminate).
  exact (proj2 (set_undefined_reads_absent (fresh 0) "k" None Hw)).
Defined.

Lemma get_ignores_foreign_entries_witness :
  let w := mkWorld [("k", "123")] [] 0%Z [] [] 0 in
  get make "k" w = (Ret Undefined, w).
Proof.
  intros w.
  apply (get_ignores_foreign_entries w "k" "123" (Num 123));
    [reflexivity|reflexivity|discriminate].
Defined.

Lemma reads_are_observationally_pure_witness :
  reads "b" (snd (keys make expired_then_live)) = reads "b" expired_then_live.
Proof.
  exact (proj1 (proj2 (proj2
           (reads_are_observationally_pure expired_then_live "b" "a")))).
Defined.

Lemma keys_lists_only_live_keys_witness :
  has make "k" (snd (keys make one_key)) =
  (Ret true, snd (keys make one_key)).
Proof.
  apply (keys_lists_only_live_keys one_key ["k"] (snd (keys make one_key)));
    [reflexivity|now left].
Defined.

Lemma listeners_stay_distinct_witness :
  NoDup
    (fns (run [Invoke [] (OpSubscribe (User 1));
               Invoke [] (OpSubscribe (User 1));
               Invoke ["p"] (OpSubscribe (User 1))]
            (fresh 0))).
Proof.
  assert (NoDup (fns (fresh 0))) as Hw by constructor.
  exact (proj1 (listeners_stay_distinct (fresh 0) (User 1) _ Hw)).
Defined.

Lemma subscribed_listener_hears_every_event_witness :
  exists u w1,
    subscribe make (User 1) (fresh 0) = (Ret u, w1) /\
    exists evs,
      published
        (run [Invoke ["p"] (OpSet "k" (Num 1) None);
              HostEvent (mkStorageEvent true (Some "x") None)] w1) = evs /\
      received 1
        (run [Invoke ["p"] (OpSet "k" (Num 1) None);
              HostEvent (mkStorageEvent true (Some "x") None)] w1) = evs.
Proof.
  eexists _, _. split; [reflexivity|].
  destruct (subscribed_listener_hears_every_event (fresh 0) 1 _ _
              [Invoke ["p"] (OpSet "k" (Num 1) None);
               HostEvent (mkStorageEvent true (Some "x") None)]
              eq_refl eq_refl eq_refl) as (evs & Hp & Hr).
  exists evs. split; [exact Hp|exact Hr].
Defined.

(** A callback subscribed through the namespace [p] of a fresh store,
    and then four calls: of the events of [p:k], [other], [p:k] and the
    [Clear], it is called with those of [k] and with the [Clear]. *)
Lemma namespaced_listener_hears_its_namespace_witness :
  let cs := [Invoke ["p"] (OpSet "k" (Num 1) None);
             Invoke [] (OpSet "other" (Num 2) None);
             Invoke ["p"] (OpRemove "k");
             Invoke [] OpClear] in
  exists u w1,
    subscribe (withPrefix make "p") (User 1) (fresh 0) = (Ret u, w1) /\
    published (run cs w1) =
      [ChSet "p:k"; ChSet "other"; ChRemove "p:k"; ChClear] /\
    received 1 (run cs w1) = [ChSet "k"; ChRemove "k"; ChClear].
Proof.
  intros cs. eexists _, _. split; [reflexivity|].
  destruct (proj1 (namespaced_listener_hears_its_namespace (fresh 0) 1 "p"
                     _ _ cs eq_refl eq_refl eq_refl))
    as (evs & Hp & Hr).
  assert (evs = [ChSet "p:k"; ChSet "other"; ChRemove "p:k"; ChClear])
    as E by (pose proof Hp as Hp'; vm_compute in Hp'; now symmetry).
  subst evs. split; [exact Hp|exact Hr].
Defined.

Lemma namespaced_keys_are_live_witness :
  let w := snd (set (withPrefix make "p") "k" (Num 1) None (fresh 0)) in
  has (withPrefix make "p") "k" (snd (keys (withPrefix make "p") w)) =
  (Ret true, snd (keys (withPrefix make "p") w)).
Proof.
  intros w.
  apply (namespaced_keys_are_live w "p" ["k"]
           (snd (keys (withPrefix make "p") w)));
    [reflexivity|now left].
Defined.

Lemma namespaced_clear_frame_witness :
  let w := run [Invoke [] (OpSet "a:x" (Num 1) None);
                Invoke [] (OpSet "b:y" (Num 2) None)]
               (fresh 0) in
  reads "b:y" (snd (clear (withPrefix make "a") w)) = reads "b:y" w.
Proof.
  intros w.
  exact (proj2 (namespaced_clear_frame w "a" "b:y" eq_refl)).
Defined.

Lemma prefixed_set_then_get_witness :
  fst (get make "user:theme"
         (snd (set (withPrefix make "user") "theme" (Str "dark") None
                 (fresh 0)))) =
  Ret (Str "dark").
Proof.
  assert (forall raw,
            JSON.stringify (Stored (Str "dark") None) = Some raw ->
            Storage.setItem ("user" ++ ":" ++ "theme") raw
              (backing (fresh 0)) <> None)
    as Hw by (intros raw _; discriminate).
  exact (proj1 (prefixed_set_then_get (fresh 0) "user" "theme" (Str "dark")
                  eq_refl Hw)).
Defined.

Lemma namespaced_clear_removes_listed_keys_witness :
  let w := run [Invoke [] (OpSet "a:x" (Num 1) None);
                Invoke [] (OpSet "b:y" (Num 2) None)]
               (fresh 0) in
  reads "a:x" (snd (clear (withPrefix make "a") w)) = Undefined.
Proof.
  intros w.
  assert (forall k (b : JSMap.t), Storage.removeItem k b <> None)
    as Hrm by (intros k b; discriminate).
  refine (proj2 (proj2 (namespaced_clear_removes_listed_keys w "a"
                          ["a:x"; "b:y"] (snd (keys make w)) Hrm eq_refl)
                   "a:x" _ eq_refl)).
  now left.
Defined.
